(** * EMYCIN in Python: a shallow embedding of [working.py]

    The engine is a certainty-factor rule interpreter with goal-directed
    backward chaining.  This development embeds the engine as Rocq
    functions and proves properties of it.

    Modelling conventions.

    - Certainty factors are Python floats.  They are embedded as exact
      rationals ([Q]): every operation of the source ([+], [-], [*], [/],
      [min], [abs], comparisons) is the rational one, and rounding,
      infinities and NaN are outside the model.  The one partial
      operation, the division in [cf_or], raises [ZeroDivisionError].
    - Python dictionaries keep insertion order and [eval_condition] sums
      the items of a dictionary in that order, so a dictionary is an
      association list in insertion order with unique keys.
    - Exceptions are values of [exn]; a computation over the mutable
      engine is a function from the engine state to an outcome and the
      state it leaves behind, also when it raises.
    - The fact store [known_values] and the dictionary [instances] are
      passed by reference to the rule functions ([values], [instances]);
      the embedding reads and writes them through the engine state, which
      is the aliasing of the source.
    - The interaction port ([read], [write]) is a script of responses
      and a log of the prompts and messages the engine produced. *)

From Stdlib Require Import QArith Qabs Qminmax ZArith List String Ascii Bool Lia Lqa.
Import ListNotations.
Local Open Scope string_scope.
Local Open Scope Q_scope.

Set Implicit Arguments.

(** ** Python values and exceptions *)

(** The values a parameter can take: the converters of the repository
    produce strings ([str], enumerated domains), integers ([int]) and
    booleans ([boolean]). *)
Inductive value : Type :=
| VStr (s : string)
| VInt (n : Z)
| VBool (b : bool).

(** Python's [==] on these values, which is also the equality of
    dictionary keys: a boolean equals the integer 0 or 1. *)
Definition value_eqb (x y : value) : bool :=
  match x, y with
  | VStr a, VStr b => String.eqb a b
  | VInt a, VInt b => Z.eqb a b
  | VBool a, VBool b => Bool.eqb a b
  | VInt a, VBool b | VBool b, VInt a => Z.eqb a (if b then 1%Z else 0%Z)
  | _, _ => false
  end.

Inductive exn : Type :=
| KeyError
| ValueError
| TypeError
| ZeroDivisionError
| AttributeError
| EOFError
| RecursionError.

Inductive outcome (A : Type) : Type :=
| Ok (a : A)
| Raise (e : exn).
Arguments Ok {A} a.
Arguments Raise {A} e.

(** ** Dictionaries in insertion order *)

Module Dict.
Section Ops.
Variables K V : Type.
Variable eqb : K -> K -> bool.

Definition t := list (K * V).

(** [d.get(k)] *)
Fixpoint get (k : K) (d : t) : option V :=
  match d with
  | [] => None
  | (k', v) :: d' => if eqb k' k then Some v else get k d'
  end.

(** [d[k] = v]: an existing key keeps its position, a new key goes
    last. *)
Fixpoint set (k : K) (v : V) (d : t) : t :=
  match d with
  | [] => [(k, v)]
  | (k', v') :: d' => if eqb k' k then (k', v) :: d' else (k', v') :: set k v d'
  end.

(** [d.setdefault(k, v)]: the value now bound to [k], and the
    dictionary. *)
Definition setdefault (k : K) (v : V) (d : t) : V * t :=
  match get k d with
  | Some x => (x, d)
  | None => (v, set k v d)
  end.

(** [d[k]], which raises [KeyError] on a missing key. *)
Definition item (k : K) (d : t) : outcome V :=
  match get k d with
  | Some x => Ok x
  | None => Raise KeyError
  end.
End Ops.
End Dict.

(** ** Certainty algebra *)

Module CF.
Definition true : Q := 1.
Definition false : Q := -1.
Definition unknown : Q := 0.
Definition cutoff : Q := 2 # 10.
End CF.

(** [a < b] and [a <= b] as booleans. *)
Definition Qltb (a b : Q) : bool := negb (Qle_bool b a).

(** [cf_or(a, b)]: the division of the last branch raises when its
    denominator is zero. *)
Definition cf_or (a b : Q) : outcome Q :=
  if Qltb 0 a && Qltb 0 b then Ok (a + b - a * b)
  else if Qltb a 0 && Qltb b 0 then Ok (a + b + a * b)
  else
    let d := 1 - Qmin (Qabs a) (Qabs b) in
    if Qeq_bool d 0 then Raise ZeroDivisionError else Ok ((a + b) / d).

Definition cf_and (a b : Q) : Q := Qmin a b.

Definition is_cf (x : Q) : bool := Qle_bool CF.false x && Qle_bool x CF.true.

Definition cf_true (x : Q) : bool := is_cf x && Qltb CF.cutoff x.

Definition cf_false (x : Q) : bool := is_cf x && Qltb x (CF.cutoff - 1).

(** ** Knowledge base *)

(** An instance is [(context name, sequence number)].  Where the source
    can hold [None] in place of an instance ([current_inst] before the
    first instantiation, the default argument of [find_out]) the
    embedding has [None]. *)
Definition Instance : Type := string * Z.
Definition inst_ref : Type := option Instance.

(** A relational operator is a first-class function of the source; the
    repository's own operator is [eq].  Operators are total predicates
    here: an operator that raises on some operands is outside the
    model. *)
Definition operator : Type := value -> value -> bool.

(** [eq(x, y)] *)
Definition eq : operator := value_eqb.

(** Conditions, unbound (with a context name) and bound (with an
    instance): [(param, ctx, op, val)]. *)
Record raw_condition : Type := RawCond {
  rc_param : string;
  rc_ctx : string;
  rc_op : operator;
  rc_val : value
}.

Record condition : Type := Cond {
  c_param : string;
  c_inst : Instance;
  c_op : operator;
  c_val : value
}.

Record Rule : Type := mkRule {
  num : Z;
  raw_premises : list raw_condition;
  raw_conclusions : list raw_condition;
  cf : Q
}.

Record Context : Type := mkContext {
  count : Z;
  name : string;
  initial_data : list string;
  goals : list string
}.

(** The class [Parameter] ([Parameter] is a reserved word here).  [cls]
    is the converter of a typed parameter, a function of the source that
    returns a value or raises; [p_cls_name] is its [__name__]. *)
Record Param : Type := mkParam {
  p_name : string;
  p_ctx : option string;
  p_enum : option (list string);
  p_cls : option (string -> outcome value);
  p_cls_name : option string;
  ask_first : bool
}.

(** [Parameter(name)] with every default. *)
Definition default_parameter (n : string) : Param :=
  mkParam n None None None None Datatypes.false.

(** [Context.instantiate]: the instance and the context with its
    counter advanced. *)
Definition ctx_instantiate (c : Context) : Instance * Context :=
  ((name c, count c),
   mkContext (count c + 1) (name c) (initial_data c) (goals c)).

(** The marker of the explanation tracer: [None], one of the strings
    ['initial'] and ['goal'], or a rule. *)
Inductive marker : Type :=
| NoRule
| Initial
| Goal
| Current (r : Rule).

(** ** The interaction port *)

(** What the engine writes.  The text of a message is rendering, which
    is outside the core; a message keeps the data that is rendered. *)
Inductive message : Type :=
| Beginning
| Help
| InvalidResponse
| MustBeOfType (param type : string)
| ShowMarker (m : marker)
| WhyAsked (param : string)
| OneOfThe (param : string) (m : marker)
| ItIsKnownThat
| Known (c : condition)
| Therefore
| Remaining (num : Z) (unknown : list condition)
            (conclusions : list raw_condition) (cf : Q).

Inductive event : Type :=
| Prompt (param : string) (inst : Instance)
| Tell (m : message).

(** ** Engine state *)

Definition key : Type := string * inst_ref.

Definition inst_eqb (a b : Instance) : bool :=
  String.eqb (fst a) (fst b) && Z.eqb (snd a) (snd b).

Definition inst_ref_eqb (a b : inst_ref) : bool :=
  match a, b with
  | Some x, Some y => inst_eqb x y
  | None, None => Datatypes.true
  | _, _ => Datatypes.false
  end.

Definition key_eqb (a b : key) : bool :=
  String.eqb (fst a) (fst b) && inst_ref_eqb (snd a) (snd b).

(** A fact-store entry: value to accumulated certainty. *)
Definition vals_t : Type := Dict.t value Q.
Definition store : Type := Dict.t key vals_t.

(** The fields of [Shell], with the port in place of [read] and
    [write]: [port_in] holds the responses [read] will return, in
    order; [port_log] holds the prompts and messages so far, oldest
    first. *)
Record Shell : Type := mkShell {
  rules : Dict.t string (list Rule);
  contexts : Dict.t string Context;
  params : Dict.t string Param;
  known : list key;
  asked : list key;
  known_values : store;
  current_inst : inst_ref;
  instances : Dict.t string Instance;
  current_rule : marker;
  port_in : list string;
  port_log : list event
}.

(** [Shell(read, write)] over a port with the given script. *)
Definition new_shell (script : list string) : Shell :=
  mkShell [] [] [] [] [] [] None [] NoRule script [].

Definition with_rules (x : Dict.t string (list Rule)) (s : Shell) : Shell :=
  mkShell x (contexts s) (params s) (known s) (asked s) (known_values s)
          (current_inst s) (instances s) (current_rule s) (port_in s) (port_log s).
Definition with_contexts (x : Dict.t string Context) (s : Shell) : Shell :=
  mkShell (rules s) x (params s) (known s) (asked s) (known_values s)
          (current_inst s) (instances s) (current_rule s) (port_in s) (port_log s).
Definition with_params (x : Dict.t string Param) (s : Shell) : Shell :=
  mkShell (rules s) (contexts s) x (known s) (asked s) (known_values s)
          (current_inst s) (instances s) (current_rule s) (port_in s) (port_log s).
Definition with_known (x : list key) (s : Shell) : Shell :=
  mkShell (rules s) (contexts s) (params s) x (asked s) (known_values s)
          (current_inst s) (instances s) (current_rule s) (port_in s) (port_log s).
Definition with_asked (x : list key) (s : Shell) : Shell :=
  mkShell (rules s) (contexts s) (params s) (known s) x (known_values s)
          (current_inst s) (instances s) (current_rule s) (port_in s) (port_log s).
Definition with_known_values (x : store) (s : Shell) : Shell :=
  mkShell (rules s) (contexts s) (params s) (known s) (asked s) x
          (current_inst s) (instances s) (current_rule s) (port_in s) (port_log s).
Definition with_current_inst (x : inst_ref) (s : Shell) : Shell :=
  mkShell (rules s) (contexts s) (params s) (known s) (asked s) (known_values s)
          x (instances s) (current_rule s) (port_in s) (port_log s).
Definition with_instances (x : Dict.t string Instance) (s : Shell) : Shell :=
  mkShell (rules s) (contexts s) (params s) (known s) (asked s) (known_values s)
          (current_inst s) x (current_rule s) (port_in s) (port_log s).
Definition with_current_rule (x : marker) (s : Shell) : Shell :=
  mkShell (rules s) (contexts s) (params s) (known s) (asked s) (known_values s)
          (current_inst s) (instances s) x (port_in s) (port_log s).
Definition with_port_in (x : list string) (s : Shell) : Shell :=
  mkShell (rules s) (contexts s) (params s) (known s) (asked s) (known_values s)
          (current_inst s) (instances s) (current_rule s) x (port_log s).
Definition with_port_log (x : list event) (s : Shell) : Shell :=
  mkShell (rules s) (contexts s) (params s) (known s) (asked s) (known_values s)
          (current_inst s) (instances s) (current_rule s) (port_in s) x.

(** ** Computations over the engine *)

Definition M (A : Type) : Type := Shell -> outcome A * Shell.

Definition ret {A} (a : A) : M A := fun s => (Ok a, s).

Definition bind {A B} (m : M A) (k : A -> M B) : M B :=
  fun s =>
    match m s with
    | (Ok a, s') => k a s'
    | (Raise e, s') => (Raise e, s')
    end.

(** A pure step that may raise. *)
Definition lift {A} (o : outcome A) : M A := fun s => (o, s).

(** [try: m  except: h]; the bare [except] of the source catches every
    exception, and what [m] changed before raising stays changed. *)
Definition try_except {A} (m : M A) (h : M A) : M A :=
  fun s =>
    match m s with
    | (Ok a, s') => (Ok a, s')
    | (Raise _, s') => h s'
    end.

Definition gets {A} (f : Shell -> A) : M A := fun s => (Ok (f s), s).
Definition modify (f : Shell -> Shell) : M unit := fun s => (Ok tt, f s).

Declare Scope engine_scope.
Delimit Scope engine_scope with engine.
Notation "x <- m ;; k" := (bind m (fun x => k))
  (at level 61, m at next level, right associativity) : engine_scope.
Notation "m ;; k" := (bind m (fun _ => k))
  (at level 61, right associativity) : engine_scope.
Local Open Scope engine_scope.

(** [for x in xs: f(x)] *)
Fixpoint for_each {A} (f : A -> M unit) (xs : list A) : M unit :=
  match xs with
  | [] => ret tt
  | x :: xs' => f x ;; for_each f xs'
  end.

(** [[f(x) for x in xs]] *)
Fixpoint map_m {A B} (f : A -> M B) (xs : list A) : M (list B) :=
  match xs with
  | [] => ret []
  | x :: xs' => y <- f x ;; ys <- map_m f xs' ;; ret (y :: ys)
  end.

(** [self.write(m)] *)
Definition write (m : message) : M unit :=
  modify (fun s => with_port_log (port_log s ++ [Tell m]) s).

(** ** Strings *)

Module Str.
(** The ASCII characters [str.strip] removes. *)
Definition is_space (c : ascii) : bool :=
  let n := nat_of_ascii c in
  ((9 <=? n) && (n <=? 13) || (28 <=? n) && (n <=? 32))%nat.

(** [s.find(c) >= 0] *)
Fixpoint contains (c : ascii) (s : string) : bool :=
  match s with
  | EmptyString => Datatypes.false
  | String c' s' => Ascii.eqb c' c || contains c s'
  end.

(** [s.split(sep)] for a separator of one character. *)
Fixpoint split (sep : ascii) (s : string) : list string :=
  match s with
  | EmptyString => [EmptyString]
  | String c s' =>
      if Ascii.eqb c sep then EmptyString :: split sep s'
      else match split sep s' with
           | [] => [String c EmptyString]
           | w :: ws => String c w :: ws
           end
  end.

Fixpoint lstrip (s : string) : string :=
  match s with
  | EmptyString => EmptyString
  | String c s' => if is_space c then lstrip s' else s
  end.

Fixpoint rstrip (s : string) : string :=
  match s with
  | EmptyString => EmptyString
  | String c s' =>
      match rstrip s' with
      | EmptyString => if is_space c then EmptyString else String c EmptyString
      | t => String c t
      end
  end.

(** [s.strip()] *)
Definition strip (s : string) : string := rstrip (lstrip s).

(** [sep.join(xs)] *)
Fixpoint join (sep : string) (xs : list string) : string :=
  match xs with
  | [] => EmptyString
  | [x] => x
  | x :: xs' => x ++ sep ++ join sep xs'
  end.
End Str.

(** ** Fact store *)

(** A reference to the value dictionary of a [(param, inst)] entry.  The
    source hands such dictionaries around by reference; each one is
    created under its key by [get_vals] and stays there, so the key
    identifies the object. *)
Definition vals_ref : Type := key.

(** The items of a referenced value dictionary, as they are now. *)
Definition items_of (r : vals_ref) (values : store) : vals_t :=
  match Dict.get key_eqb r values with
  | Some vals => vals
  | None => []
  end.

Definition items (r : vals_ref) : M vals_t :=
  gets (fun s => items_of r (known_values s)).

(** The in-place update of a referenced value dictionary. *)
Definition mutate (r : vals_ref) (f : vals_t -> vals_t) : M unit :=
  modify (fun s =>
    with_known_values
      (Dict.set key_eqb r (f (items_of r (known_values s))) (known_values s)) s).

(** [get_vals(values, param, inst)]: [values.setdefault((param, inst), {})] *)
Definition get_vals (param : string) (inst : inst_ref) : M vals_ref :=
  modify (fun s =>
    with_known_values
      (snd (Dict.setdefault key_eqb (param, inst) ([] : vals_t) (known_values s)))
      s) ;;
  ret (param, inst).

(** [get_cf(values, param, inst, val)] *)
Definition get_cf (param : string) (inst : inst_ref) (val : value) : M Q :=
  vals <- get_vals param inst ;;
  mutate vals (fun d => snd (Dict.setdefault value_eqb val CF.unknown d)) ;;
  d <- items vals ;;
  ret (fst (Dict.setdefault value_eqb val CF.unknown d)).

(** [update_cf(values, param, inst, val, cf)] *)
Definition update_cf (param : string) (inst : inst_ref) (val : value) (c : Q)
  : M unit :=
  existing <- get_cf param inst val ;;
  updated <- lift (cf_or existing c) ;;
  vals <- get_vals param inst ;;
  mutate vals (Dict.set value_eqb val updated).

(** ** Rule engine *)

(** The hook [find_out] of the rule functions, and the observer
    [track]. *)
Definition hook : Type := string -> inst_ref -> M (option bool).
Definition tracker : Type := Rule -> M unit.

(** [Rule._bind_cond(cond, instances)] *)
Definition _bind_cond (cond : raw_condition) (insts : Dict.t string Instance)
  : outcome condition :=
  match Dict.item String.eqb (rc_ctx cond) insts with
  | Ok i => Ok (Cond (rc_param cond) i (rc_op cond) (rc_val cond))
  | Raise e => Raise e
  end.

Fixpoint bind_conds (conds : list raw_condition) (insts : Dict.t string Instance)
  : outcome (list condition) :=
  match conds with
  | [] => Ok []
  | c :: conds' =>
      match _bind_cond c insts with
      | Raise e => Raise e
      | Ok b =>
          match bind_conds conds' insts with
          | Raise e => Raise e
          | Ok bs => Ok (b :: bs)
          end
      end
  end.

(** [Rule.premises(instances)] and [Rule.conclusions(instances)], on the
    engine's [instances]. *)
Definition premises (r : Rule) : M (list condition) :=
  fun s => (bind_conds (raw_premises r) (instances s), s).

Definition conclusions (r : Rule) : M (list condition) :=
  fun s => (bind_conds (raw_conclusions r) (instances s), s).

(** The sum [eval_condition] takes over the items of a dictionary. *)
Definition condition_sum (c : condition) (vals : vals_t) : Q :=
  fold_left
    (fun total kv => if c_op c (fst kv) (c_val c) then total + snd kv else total)
    vals 0.

(** [eval_condition(condition, values, find_out)]: the hook runs first,
    then the items of [values] are summed as the hook left them. *)
Definition eval_condition (c : condition) (values : vals_ref)
    (find_out : option hook) : M Q :=
  match find_out with
  | Some f => f (c_param c) (Some (c_inst c)) ;; ret tt
  | None => ret tt
  end ;;
  vals <- items values ;;
  ret (condition_sum c vals).

(** The first loop of [applicable]: [true] when it returned
    [CF.false]. *)
Fixpoint reject_loop (ps : list condition) : M bool :=
  match ps with
  | [] => ret Datatypes.false
  | p :: ps' =>
      vals <- get_vals (c_param p) (Some (c_inst p)) ;;
      c <- eval_condition p vals None ;;
      if cf_false c then ret Datatypes.true else reject_loop ps'
  end.

(** The second loop of [applicable], from the running [total_cf]. *)
Fixpoint combine_loop (find_out : option hook) (total_cf : Q)
    (ps : list condition) : M Q :=
  match ps with
  | [] => ret total_cf
  | p :: ps' =>
      vals <- get_vals (c_param p) (Some (c_inst p)) ;;
      c <- eval_condition p vals find_out ;;
      let total_cf := cf_and total_cf c in
      if negb (cf_true total_cf) then ret CF.false
      else combine_loop find_out total_cf ps'
  end.

(** [Rule.applicable(values, instances, find_out)] *)
Definition applicable (r : Rule) (find_out : option hook) : M Q :=
  ps <- premises r ;;
  rejected <- reject_loop ps ;;
  if rejected then ret CF.false
  else
    ps <- premises r ;;
    combine_loop find_out CF.true ps.

(** [Rule.apply(values, instances, find_out, track)] *)
Definition apply (r : Rule) (find_out : option hook) (track : option tracker)
  : M bool :=
  match track with
  | Some t => t r
  | None => ret tt
  end ;;
  a <- applicable r find_out ;;
  let c := cf r * a in
  if negb (cf_true c) then ret Datatypes.false
  else
    cs <- conclusions r ;;
    for_each
      (fun cn => update_cf (c_param cn) (Some (c_inst cn)) (c_val cn) c) cs ;;
    ret Datatypes.true.

(** [use_rules(values, instances, rules, find_out, track_rules)]: the
    list of the results of [apply] is built first, then [any] is taken
    of it. *)
Definition use_rules (rs : list Rule) (find_out : option hook)
    (track_rules : option tracker) : M bool :=
  fired <- map_m (fun r => apply r find_out track_rules) rs ;;
  ret (existsb (fun b => b) fired).

(** ** Parameters *)

(** [Parameter.type_string] *)
Definition type_string (p : Param) : outcome string :=
  match p_cls p with
  | Some _ =>
      match p_cls_name p with
      | Some n => Ok n
      | None => Raise AttributeError
      end
  | None =>
      match p_enum p with
      | Some e => Ok ("(" ++ Str.join ", " e ++ ")")
      | None => Raise TypeError
      end
  end.

(** [Parameter.from_string(val)]; without a converter and without a
    domain, building the message of the [ValueError] raises
    [TypeError]. *)
Definition from_string (p : Param) (val : string) : outcome value :=
  match p_cls p with
  | Some cls => cls val
  | None =>
      match p_enum p with
      | Some e =>
          if negb (Nat.eqb (List.length e) 0) && existsb (String.eqb val) e
          then Ok (VStr val)
          else Raise ValueError
      | None => Raise TypeError
      end
  end.

(** ** Inference engine *)

(** Membership and [add] of the sets [known] and [asked]. *)
Definition mem (k : key) (ks : list key) : bool := existsb (key_eqb k) ks.

Definition add (k : key) (ks : list key) : list key :=
  if mem k ks then ks else (ks ++ [k])%list.

(** Truth of [None], [False] and [True]. *)
Definition truthy (x : option bool) : bool :=
  match x with
  | Some b => b
  | None => Datatypes.false
  end.

(** [a or b] *)
Definition por (a b : M (option bool)) : M (option bool) :=
  x <- a ;; if truthy x then ret x else b.

(** [Shell.clear] *)
Definition clear : M unit :=
  modify (fun s =>
    mkShell (rules s) (contexts s) (params s) [] [] [] None [] NoRule
            (port_in s) (port_log s)).

(** [Shell.define_rule(rule)] *)
Definition define_rule (r : Rule) : M unit :=
  for_each
    (fun c =>
       modify (fun s =>
         let (l, d) := Dict.setdefault String.eqb (rc_param c) [] (rules s) in
         with_rules (Dict.set String.eqb (rc_param c) (l ++ [r])%list d) s))
    (raw_conclusions r).

(** [Shell.define_context(ctx)] *)
Definition define_context (ctx : Context) : M unit :=
  modify (fun s => with_contexts (Dict.set String.eqb (name ctx) ctx (contexts s)) s).

(** [Shell.define_param(param)] *)
Definition define_param (p : Param) : M unit :=
  modify (fun s => with_params (Dict.set String.eqb (p_name p) p (params s)) s).

(** [Shell.get_rules(param)] *)
Definition get_rules (param : string) : M (list Rule) :=
  fun s =>
    let (l, d) := Dict.setdefault String.eqb param [] (rules s) in
    (Ok l, with_rules d s).

(** [Shell.instantiate(ctx_name)] *)
Definition instantiate (ctx_name : string) : M Instance :=
  ctx <- (fun s => (Dict.item String.eqb ctx_name (contexts s), s)) ;;
  let (inst, ctx') := ctx_instantiate ctx in
  modify (fun s => with_contexts (Dict.set String.eqb ctx_name ctx' (contexts s)) s) ;;
  modify (with_current_inst (Some inst)) ;;
  modify (fun s => with_instances (Dict.set String.eqb ctx_name inst (instances s)) s) ;;
  ret inst.

(** [Shell.get_param(name)] *)
Definition get_param (n : string) : M Param :=
  fun s =>
    let (p, d) := Dict.setdefault String.eqb n (default_parameter n) (params s) in
    (Ok p, with_params d s).

(** [Shell._set_current_rule(rule)] *)
Definition _set_current_rule (m : marker) : M unit :=
  modify (with_current_rule m).

(** The loop of [print_why] that sorts the premises into [known] and
    [unknown]. *)
Fixpoint sort_premises (ps : list condition)
  : M (list condition * list condition) :=
  match ps with
  | [] => ret ([], [])
  | p :: ps' =>
      vals <- get_vals (c_param p) (Some (c_inst p)) ;;
      c <- eval_condition p vals None ;;
      rest <- sort_premises ps' ;;
      ret (if cf_true c then (p :: fst rest, snd rest)
           else (fst rest, p :: snd rest))
  end.

(** [Shell.print_why(param)] *)
Definition print_why (param : string) : M unit :=
  write (WhyAsked param) ;;
  cr <- gets current_rule ;;
  match cr with
  | Initial | Goal => write (OneOfThe param cr)
  | NoRule => lift (Raise AttributeError)
  | Current r =>
      ps <- premises r ;;
      ku <- sort_premises ps ;;
      match fst ku with
      | [] => ret tt
      | _ =>
          write ItIsKnownThat ;;
          for_each (fun c => write (Known c)) (fst ku) ;;
          write Therefore
      end ;;
      write (Remaining (num r) (snd ku) (raw_conclusions r) (cf r))
  end.

Section Engine.

(** Python's [float] on a token of a reply: the number it denotes, or
    the exception it raises. *)
Variable float : string -> outcome Q.

(** One [val cf] pair of a reply. *)
Definition parse_pair (p : Param) (pr : string) : outcome (value * Q) :=
  match Str.split " " (Str.strip pr) with
  | [val; c] =>
      match from_string p val with
      | Raise e => Raise e
      | Ok v =>
          match float c with
          | Raise e => Raise e
          | Ok q => Ok (v, q)
          end
      end
  | _ => Raise ValueError
  end.

Fixpoint parse_pairs (p : Param) (pairs : list string)
  : outcome (list (value * Q)) :=
  match pairs with
  | [] => Ok []
  | pr :: pairs' =>
      match parse_pair p pr with
      | Raise e => Raise e
      | Ok x =>
          match parse_pairs p pairs' with
          | Raise e => Raise e
          | Ok xs => Ok (x :: xs)
          end
      end
  end.

(** [parse_reply(param, reply)] *)
Definition parse_reply (p : Param) (reply : string)
  : outcome (list (value * Q)) :=
  if Str.contains "," reply then parse_pairs p (Str.split "," reply)
  else
    match from_string p reply with
    | Raise e => Raise e
    | Ok v => Ok [(v, CF.true)]
    end.

(** The [try] block of [ask_values]. *)
Definition accept_reply (param : string) (inst : inst_ref) (resp : string)
  : M (option bool) :=
  p <- get_param param ;;
  parsed <- lift (parse_reply p resp) ;;
  for_each (fun vc => update_cf param inst (fst vc) (snd vc)) parsed ;;
  ret (Some Datatypes.true).

(** The [while True] loop of [ask_values] over the responses the port
    still holds: [read] logs the prompt and returns the next response,
    or raises at the end of the script. *)
Fixpoint ask_loop (param : string) (inst : Instance) (script : list string)
  : M (option bool) :=
  modify (fun s => with_port_log (port_log s ++ [Prompt param inst]) s) ;;
  match script with
  | [] => lift (Raise EOFError)
  | resp :: script' =>
      modify (with_port_in script') ;;
      if String.eqb resp EmptyString then ask_loop param inst script'
      else if String.eqb resp "unknown" then ret (Some Datatypes.false)
      else if String.eqb resp "help" then
        write Help ;; ask_loop param inst script'
      else if String.eqb resp "why" then
        print_why param ;; ask_loop param inst script'
      else if String.eqb resp "rule" then
        cr <- gets current_rule ;;
        write (ShowMarker cr) ;; ask_loop param inst script'
      else if String.eqb resp "?" then
        p <- get_param param ;;
        ty <- lift (type_string p) ;;
        write (MustBeOfType param ty) ;; ask_loop param inst script'
      else
        try_except
          (accept_reply param (Some inst) resp)
          (write InvalidResponse ;; ask_loop param inst script')
  end.

(** [Shell.ask_values(param, inst)]; formatting the prompt for an
    instance that is [None] raises [TypeError]. *)
Definition ask_values (param : string) (inst : inst_ref) : M (option bool) :=
  again <- gets (fun s => mem (param, inst) (asked s)) ;;
  if again then ret None
  else
    modify (fun s => with_asked (add (param, inst) (asked s)) s) ;;
    match inst with
    | None => lift (Raise TypeError)
    | Some i => script <- gets port_in ;; ask_loop param i script
    end.

(** [Shell.find_out(param, inst)].  [fuel] bounds the depth of nested
    calls, which the source leaves to the interpreter's recursion
    limit: a call that would nest deeper raises [RecursionError]. *)
Fixpoint find_out (fuel : nat) (param : string) (inst : inst_ref)
  : M (option bool) :=
  fun s =>
    let inst := match inst with
                | Some i => Some i
                | None => current_inst s
                end in
    if mem (param, inst) (known s) then (Ok (Some Datatypes.true), s)
    else
      match fuel with
      | O => (Raise RecursionError, s)
      | S fuel' =>
          let rules_ : M (option bool) :=
            rs <- get_rules param ;;
            b <- use_rules rs (Some (find_out fuel'))
                   (Some (fun r => _set_current_rule (Current r))) ;;
            ret (Some b) in
          (p <- get_param param ;;
           success <- (if ask_first p
                       then por (ask_values param inst) rules_
                       else por rules_ (ask_values param inst)) ;;
           (if truthy success
            then modify (fun s => with_known (add (param, inst) (known s)) s)
            else ret tt) ;;
           ret success) s
      end.

(** The loop of [execute] that fills one [result]: each goal
    parameter is bound to a reference to its value dictionary. *)
Fixpoint snapshot (ps : list string) (result : Dict.t string vals_ref)
  : M (Dict.t string vals_ref) :=
  match ps with
  | [] => ret result
  | p :: ps' =>
      ci <- gets current_inst ;;
      r <- get_vals p ci ;;
      snapshot ps' (Dict.set String.eqb p r result)
  end.

(** The loop of [execute] over the context names. *)
Fixpoint execute_loop (fuel : nat) (context_names : list string)
    (results : Dict.t inst_ref (Dict.t string vals_ref))
  : M (Dict.t inst_ref (Dict.t string vals_ref)) :=
  match context_names with
  | [] => ret results
  | n :: names' =>
      ctx <- (fun s => (Dict.item String.eqb n (contexts s), s)) ;;
      instantiate n ;;
      _set_current_rule Initial ;;
      for_each (fun p => find_out fuel p None ;; ret tt) (initial_data ctx) ;;
      _set_current_rule Goal ;;
      for_each (fun p => find_out fuel p None ;; ret tt) (goals ctx) ;;
      results' <- match goals ctx with
                  | [] => ret results
                  | _ =>
                      result <- snapshot (goals ctx) [] ;;
                      ci <- gets current_inst ;;
                      ret (Dict.set inst_ref_eqb ci result results)
                  end ;;
      execute_loop fuel names' results'
  end.

(** What the caller of [execute] sees in the mapping it gets back:
    every reference holds the items its dictionary has at the
    return. *)
Definition resolve (results : Dict.t inst_ref (Dict.t string vals_ref))
    (values : store) : Dict.t inst_ref (Dict.t string vals_t) :=
  map (fun ir =>
         (fst ir, map (fun pr => (fst pr, items_of (snd pr) values)) (snd ir)))
      results.

(** [Shell.execute(context_names)] *)
Definition execute (fuel : nat) (context_names : list string)
  : M (Dict.t inst_ref (Dict.t string vals_t)) :=
  write Beginning ;;
  clear ;;
  results <- execute_loop fuel context_names [] ;;
  values <- gets known_values ;;
  ret (resolve results values).
End Engine.

(** ** Converters and operators of knowledge bases *)

(** [boolean(string)] *)
Definition boolean (s : string) : outcome value :=
  if String.eqb s "True" then Ok (VBool Datatypes.true)
  else if String.eqb s "False" then Ok (VBool Datatypes.false)
  else Raise ValueError.

(** [str(val)] *)
Definition str (s : string) : outcome value := Ok (VStr s).

Module Decimal.
Definition digit (c : ascii) : option Z :=
  let n := nat_of_ascii c in
  if ((48 <=? n) && (n <=? 57))%nat then Some (Z.of_nat (n - 48)) else None.

(** The number a string of digits denotes after the digits read so
    far, and how many digits were read. *)
Fixpoint digits (acc : Z) (len : nat) (s : string) : option (Z * nat) :=
  match s with
  | EmptyString => Some (acc, len)
  | String c s' =>
      match digit c with
      | Some d => digits (10 * acc + d)%Z (S len) s'
      | None => None
      end
  end.

(** Sign and magnitude of a signed literal. *)
Definition signed (s : string) : Z * string :=
  match s with
  | String "-" s' => ((-1)%Z, s')
  | String "+" s' => (1%Z, s')
  | _ => (1%Z, s)
  end.

(** [int] on plain decimal literals: blanks around an optional sign
    and at least one digit.  The other spellings Python accepts
    (underscores between digits, digits outside ASCII) are
    rejected. *)
Definition int (s : string) : outcome value :=
  let (sg, body) := signed (Str.strip s) in
  match digits 0 0 body with
  | Some (n, S _) => Ok (VInt (sg * n))
  | _ => Raise ValueError
  end.

(** [float] on plain decimal literals: blanks around an optional
    sign, digits, and an optional point followed by digits, with a
    digit on at least one side of the point.  Exponents, infinities
    and NaN are rejected. *)
Definition float (s : string) : outcome Q :=
  let (sg, body) := signed (Str.strip s) in
  match Str.split "." body with
  | [whole] =>
      match digits 0 0 whole with
      | Some (n, S _) => Ok (inject_Z (sg * n))
      | _ => Raise ValueError
      end
  | [whole; frac] =>
      match digits 0 0 whole, digits 0 0 frac with
      | Some (n, ln), Some (m, lm) =>
          if (Nat.eqb (ln + lm) 0)%nat then Raise ValueError
          else Ok ((sg * (n * 10 ^ Z.of_nat lm + m))%Z
                   # Z.to_pos (10 ^ Z.of_nat lm))
      | _, _ => Raise ValueError
      end
  | _ => Raise ValueError
  end.
End Decimal.

(** [operator.ge] on integers; on other operands Python's [>=] is
    either another order or an error, and the predicate is false. *)
Definition ge : operator :=
  fun x y =>
    match x, y with
    | VInt a, VInt b => Z.leb b a
    | _, _ => Datatypes.false
    end.

(** The state a computation leaves, and its outcome. *)
Definition state_after {A} (m : M A) (s : Shell) : Shell := snd (m s).
Definition outcome_of {A} (m : M A) (s : Shell) : outcome A := fst (m s).

(** ** The knowledge base of the first scenario

    Context [c] with initial parameter [x], an integer, and goal
    parameter [y], one of [lo] and [hi]; one rule, from [x >= 10] to
    [y = hi] with attenuation 0.9. *)

Module Scenario.
Definition c : Context := mkContext 0 "c" ["x"] ["y"].

Definition x : Param :=
  mkParam "x" (Some "c") None (Some Decimal.int) (Some "int") Datatypes.false.

Definition y : Param :=
  mkParam "y" (Some "c") (Some ["lo"; "hi"]) None None Datatypes.false.

Definition rule1 : Rule :=
  mkRule 1 [RawCond "x" "c" ge (VInt 10)] [RawCond "y" "c" eq (VStr "hi")]
         (9 # 10).

(** A second rule for [y], from [x >= 5] to [y = lo]. *)
Definition rule2 : Rule :=
  mkRule 2 [RawCond "x" "c" ge (VInt 5)] [RawCond "y" "c" eq (VStr "lo")]
         (5 # 10).

(** A rule with three premises, on [x] and on two parameters without
    definition. *)
Definition rule3 : Rule :=
  mkRule 3
         [RawCond "x" "c" ge (VInt 10); RawCond "a" "c" eq (VStr "yes");
          RawCond "b" "c" eq (VStr "yes")]
         [RawCond "y" "c" eq (VStr "hi")]
         (9 # 10).

(** A hook that raises whenever it is run. *)
Definition raising_hook : hook := fun _ _ => lift (Raise RecursionError).

(** The engine after the definitions, over a port with a script. *)
Definition shell (script : list string) : Shell :=
  state_after
    (define_context c ;; define_param x ;; define_param y ;;
     define_rule rule1)
    (new_shell script).
End Scenario.

(** ** Notions of the statements *)

Unset Implicit Arguments.

(** The certainty the store holds for a value of [(param, inst)], if
    any. *)
Definition stored (p : string) (i : inst_ref) (v : value) (s : Shell)
  : option Q :=
  Dict.get value_eqb v (items_of (p, i) (known_values s)).

(** The certainty of a bound condition against the facts of a state:
    what [eval_condition] computes without a hook. *)
Definition certainty (c : condition) (s : Shell) : Q :=
  condition_sum c (items_of (c_param c, Some (c_inst c)) (known_values s)).

(** The effective certainty [apply] computes for a rule, after telling
    the observer. *)
Definition effective_certainty (r : Rule) (find_out : option hook)
    (track : option tracker) : M Q :=
  match track with
  | Some t => t r
  | None => ret tt
  end ;;
  a <- applicable r find_out ;;
  ret (cf r * a).

(** A hook, or an observer, whose every run changes the state within a
    relation. *)
Definition hook_within (changes : Shell -> Shell -> Prop) (fo : option hook)
  : Prop :=
  forall h, fo = Some h -> forall p i s, changes s (state_after (h p i) s).

Definition tracker_within (changes : Shell -> Shell -> Prop)
    (tr : option tracker) : Prop :=
  forall t, tr = Some t -> forall r s, changes s (state_after (t r) s).

(** Two states that read the same: every field but the fact store is
    equal, and every [(param, inst)] has the same value dictionary, an
    absent entry reading as an empty one. *)
Definition same_facts (s t : Shell) : Prop :=
  with_known_values [] t = with_known_values [] s /\
  forall k, items_of k (known_values t) = items_of k (known_values s).

(** The instance a call of [find_out] is about: [inst or
    self.current_inst]. *)
Definition target (inst : inst_ref) (s : Shell) : inst_ref :=
  match inst with
  | Some i => Some i
  | None => current_inst s
  end.


(** Two engines that agree on everything but the log of the port. *)
Definition same_engine (s t : Shell) : Prop :=
  with_port_log [] s = with_port_log [] t.

(** A computation that does not read the log of the port: from two
    engines that agree on everything else it has the same outcome and
    leaves two engines that agree on everything else. *)
Definition log_blind {A} (m : M A) : Prop :=
  forall s t,
    same_engine s t ->
    outcome_of m s = outcome_of m t /\
    same_engine (state_after m s) (state_after m t).

Definition blind_hook (fo : option hook) : Prop :=
  forall h, fo = Some h -> forall p i, log_blind (h p i).

Definition blind_tracker (tr : option tracker) : Prop :=
  forall t, tr = Some t -> forall r, log_blind (t r).

(** The invariant of the fact store: every certainty it holds is a
    certainty factor. *)
Definition cf_invariant (s : Shell) : Prop :=
  forall p i v c, stored p i v s = Some c -> -1 <= c <= 1.

(** A certainty factor. *)
Definition in_range (c : Q) : Prop := -1 <= c <= 1.

(** A value dictionary that holds certainty factors only. *)
Definition vals_ok (d : vals_t) : Prop :=
  forall v c, Dict.get value_eqb v d = Some c -> in_range c.

(** A computation that keeps the invariant of the fact store, also when
    it raises, and whose result, when it returns one, satisfies [Q]. *)
Definition keeps {A} (m : M A) (Q : A -> Prop) : Prop :=
  forall s,
    cf_invariant s ->
    cf_invariant (state_after m s) /\
    forall a, outcome_of m s = Ok a -> Q a.

Definition keeping_hook (fo : option hook) : Prop :=
  forall h, fo = Some h -> forall p i, keeps (h p i) (fun _ => True).

Definition keeping_tracker (tr : option tracker) : Prop :=
  forall t, tr = Some t -> forall r, keeps (t r) (fun _ => True).

(** The certainty [get_cf] reads for a value: the stored one, or
    unknown. *)
Definition existing (p : string) (i : inst_ref) (v : value) (s : Shell) : Q :=
  match stored p i v s with
  | Some x => x
  | None => CF.unknown
  end.

(** A rule against [y = lo] from [x >= 10], with the negative
    attenuation -0.9. *)
Definition negative_rule : Rule :=
  mkRule 4 [RawCond "x" "c" ge (VInt 10)] [RawCond "y" "c" eq (VStr "lo")]
         (-(9 # 10)).

(** The applicability [apply] obtains for a rule, after telling the
    observer. *)
Definition applicability (r : Rule) (find_out : option hook)
    (track : option tracker) : M Q :=
  match track with
  | Some t => t r
  | None => ret tt
  end ;;
  applicable r find_out.

(** Every premise has a certainty above the cutoff. *)
Definition all_pass (ps : list condition) (s : Shell) : bool :=
  forallb (fun p => Qltb CF.cutoff (certainty p s)) ps.

(** The running [cf_and] of the certainties of the premises. *)
Definition weakest (total : Q) (ps : list condition) (s : Shell) : Q :=
  fold_left (fun t p => cf_and t (certainty p s)) ps total.

(** The number of conclusions of a rule about a parameter. *)
Definition concludes (r : Rule) (p : string) : nat :=
  List.length (filter (fun c => String.eqb (rc_param c) p) (raw_conclusions r)).

(** The rules registered for a parameter, none when it has no entry. *)
Definition rules_for (p : string) (s : Shell) : list Rule :=
  match Dict.get String.eqb p (rules s) with
  | Some rs => rs
  | None => []
  end.

(** A computation whose every run changes the state within a
    relation, also when it raises. *)
Definition within (R : Shell -> Shell -> Prop) {A} (m : M A) : Prop :=
  forall s, R s (state_after m s).

(** A relation that holds across every step the rule functions and the
    acceptance of a reply take: it is reflexive and transitive and holds
    across [get_vals], the two updates of a value dictionary, a write to
    the port and [get_param]. *)
Definition rule_steps (R : Shell -> Shell -> Prop) : Prop :=
  (forall s, R s s) /\
  (forall s t u, R s t -> R t u -> R s u) /\
  (forall p i, within R (get_vals p i)) /\
  (forall r v,
     within R (mutate r (fun d => snd (Dict.setdefault value_eqb v CF.unknown d)))) /\
  (forall r v u, within R (mutate r (Dict.set value_eqb v u))) /\
  (forall ev s, R s (with_port_log (port_log s ++ [ev]) s)) /\
  (forall n, within R (get_param n)).

(** A relation that also holds across the other steps of [find_out]:
    [get_rules], the marker of the current rule, an addition to [known]
    or [asked], and the reading of the next response. *)
Definition session_steps (R : Shell -> Shell -> Prop) : Prop :=
  rule_steps R /\
  (forall n, within R (get_rules n)) /\
  (forall m s, R s (with_current_rule m s)) /\
  (forall k s, R s (with_known (add k (known s)) s)) /\
  (forall k s, R s (with_asked (add k (asked s)) s)) /\
  (forall r rest s, port_in s = r :: rest -> R s (with_port_in rest s)).

(** The port still holds the same responses. *)
Definition same_script (s t : Shell) : Prop := port_in t = port_in s.

(** What a resolution may change, from a state [s] to a state [t]: the
    contexts with their counters, the instances and the current instance
    stay; [known] and [asked] keep their members; the fact store keeps
    its entries and every value that has a certainty keeps one; the rule
    lists and parameters that are defined stay as they are; the log of
    the port is extended and the responses are taken from the front of
    the script. *)
Definition grows (s t : Shell) : Prop :=
  contexts t = contexts s /\
  instances t = instances s /\
  current_inst t = current_inst s /\
  (forall k, mem k (known s) = true -> mem k (known t) = true) /\
  (forall k, mem k (asked s) = true -> mem k (asked t) = true) /\
  (forall k, Dict.get key_eqb k (known_values s) <> None ->
             Dict.get key_eqb k (known_values t) <> None) /\
  (forall p i v, stored p i v s <> None -> stored p i v t <> None) /\
  (forall p rs, Dict.get String.eqb p (rules s) = Some rs ->
                Dict.get String.eqb p (rules t) = Some rs) /\
  (forall n prm, Dict.get String.eqb n (params s) = Some prm ->
                 Dict.get String.eqb n (params t) = Some prm) /\
  (exists l, port_log t = (port_log s ++ l)%list) /\
  (exists l, port_in s = (l ++ port_in t)%list).

(** What a session may change, from a state [s] to a state [t]: the
    rule lists and parameters that are defined stay as they are; a
    context that is defined stays defined with its name, its initial
    parameters and its goals, and its counter does not decrease; the log
    of the port is extended and the responses are taken from the front
    of the script. *)
Definition persists (s t : Shell) : Prop :=
  (forall p rs, Dict.get String.eqb p (rules s) = Some rs ->
                Dict.get String.eqb p (rules t) = Some rs) /\
  (forall n prm, Dict.get String.eqb n (params s) = Some prm ->
                 Dict.get String.eqb n (params t) = Some prm) /\
  (forall n ctx,
     Dict.get String.eqb n (contexts s) = Some ctx ->
     exists ctx',
       Dict.get String.eqb n (contexts t) = Some ctx' /\
       name ctx' = name ctx /\ initial_data ctx' = initial_data ctx /\
       goals ctx' = goals ctx /\ (count ctx <= count ctx')%Z) /\
  (exists l, port_log t = (port_log s ++ l)%list) /\
  (exists l, port_in s = (l ++ port_in t)%list).

(** Every named context is defined and declares no goal. *)
Definition without_goals (names : list string) (s : Shell) : Prop :=
  forall n, In n names ->
    exists ctx, Dict.get String.eqb n (contexts s) = Some ctx /\ goals ctx = [].


(** * Properties *)

(** ** Dictionaries *)

Section DictFacts.
Variables K V : Type.
Variable eqb : K -> K -> bool.
Implicit Types (d : Dict.t K V) (k : K) (v : V).

Lemma get_set_same k v d :
  eqb k k = Datatypes.true -> Dict.get eqb k (Dict.set eqb k v d) = Some v.
Proof.
  intros R. induction d as [|[k' v'] d IH]; cbn.
  - now rewrite R.
  - destruct (eqb k' k) eqn:E; cbn; rewrite E; auto.
Qed.

Lemma set_absent k v d :
  Dict.get eqb k d = None -> Dict.set eqb k v d = (d ++ [(k, v)])%list.
Proof.
  induction d as [|[k' v'] d IH]; cbn; [reflexivity|].
  destruct (eqb k' k); [discriminate|]. intros H. now rewrite IH.
Qed.

Lemma get_app_last k k' v d :
  Dict.get eqb k (d ++ [(k', v)])%list =
  match Dict.get eqb k d with
  | Some x => Some x
  | None => if eqb k' k then Some v else None
  end.
Proof.
  induction d as [|[k'' v''] d IH]; cbn; [reflexivity|].
  now destruct (eqb k'' k).
Qed.

Lemma get_setdefault k v d :
  eqb k k = Datatypes.true ->
  Dict.get eqb k (snd (Dict.setdefault eqb k v d)) =
  Some (fst (Dict.setdefault eqb k v d)).
Proof.
  intros R. unfold Dict.setdefault.
  destruct (Dict.get eqb k d) eqn:E; cbn; [assumption|].
  now apply get_set_same.
Qed.

Lemma fst_setdefault k v d :
  fst (Dict.setdefault eqb k v d) =
  match Dict.get eqb k d with
  | Some x => x
  | None => v
  end.
Proof.
  unfold Dict.setdefault. now destruct (Dict.get eqb k d).
Qed.
End DictFacts.

Lemma value_eqb_refl v : value_eqb v v = Datatypes.true.
Proof.
  destruct v; cbn;
    [apply String.eqb_refl | apply Z.eqb_refl | apply Bool.eqb_reflx].
Qed.

Lemma key_eqb_refl k : key_eqb k k = Datatypes.true.
Proof.
  destruct k as [p [[c n]|]]; unfold key_eqb, inst_ref_eqb, inst_eqb; cbn;
    rewrite ?String.eqb_refl, ?Z.eqb_refl; reflexivity.
Qed.

#[local] Hint Resolve value_eqb_refl key_eqb_refl : core.

(** ** Certainty algebra *)

Lemma Qltb_true a b : Qltb a b = Datatypes.true <-> a < b.
Proof.
  unfold Qltb. rewrite negb_true_iff. split; intro H.
  - apply Qnot_le_lt. intro L. apply Qle_bool_iff in L. congruence.
  - destruct (Qle_bool b a) eqn:E; [|reflexivity].
    apply Qle_bool_iff in E. lra.
Qed.

Lemma Qltb_false a b : Qltb a b = Datatypes.false <-> b <= a.
Proof.
  unfold Qltb. rewrite negb_false_iff. apply Qle_bool_iff.
Qed.

Lemma is_cf_true x : is_cf x = Datatypes.true <-> -1 <= x <= 1.
Proof.
  unfold is_cf, CF.false, CF.true.
  rewrite andb_true_iff, !Qle_bool_iff. reflexivity.
Qed.

(** [cf_or(unknown, x)] is [x] itself, numerator and denominator. *)
Lemma cf_or_unknown_l c : cf_or CF.unknown c = Ok c.
Proof.
  unfold cf_or, CF.unknown.
  change (Qltb 0 0) with Datatypes.false. cbn [andb].
  change (Qabs 0) with 0.
  assert (Qmin 0 (Qabs c) = 0) as ->.
  { unfold Qmin, GenericMinMax.gmin.
    destruct (0 ?= Qabs c) eqn:E; try reflexivity.
    exfalso. apply Qgt_alt in E. pose proof (Qabs_nonneg c). lra. }
  destruct c as [n d]. f_equal.
  unfold Qdiv, Qminus, Qplus, Qmult, Qinv, Qopp; cbn.
  rewrite !Z.mul_1_r, !Pos.mul_1_r. reflexivity.
Qed.

(** On certainty factors [cf_or] raises at the two singular pairs
    only, where the denominator of its last branch is zero. *)
Lemma cf_or_raise_iff a b e :
  -1 <= a <= 1 -> -1 <= b <= 1 ->
  (cf_or a b = Raise e <->
   e = ZeroDivisionError /\ ((a == 1 /\ b == -1) \/ (a == -1 /\ b == 1))).
Proof.
  intros Ha Hb. unfold cf_or.
  destruct (Qltb 0 a && Qltb 0 b) eqn:E1.
  { apply andb_true_iff in E1 as [P1 P2]. apply Qltb_true in P1, P2.
    split; [discriminate|]. intros [_ [[? ?]|[? ?]]]; lra. }
  destruct (Qltb a 0 && Qltb b 0) eqn:E2.
  { apply andb_true_iff in E2 as [P1 P2]. apply Qltb_true in P1, P2.
    split; [discriminate|]. intros [_ [[? ?]|[? ?]]]; lra. }
  apply andb_false_iff in E1, E2. rewrite !Qltb_false in E1, E2.
  set (m := Qmin (Qabs a) (Qabs b)).
  assert (Hm : (m == 1 -> (a == 1 /\ b == -1) \/ (a == -1 /\ b == 1)) /\
               ((a == 1 /\ b == -1) \/ (a == -1 /\ b == 1) -> m == 1)).
  { unfold m.
    destruct (Q.min_spec (Qabs a) (Qabs b)) as [[L Em]|[L Em]];
      rewrite Em; clear Em; revert L;
      apply (Qabs_case a); apply (Qabs_case b); intros; split; intros;
      repeat match goal with H : _ \/ _ |- _ => destruct H
             | H : _ /\ _ |- _ => destruct H end;
      try lra;
      first [left; split; lra | right; split; lra]. }
  destruct Hm as [M1 M2].
  destruct (Qeq_bool (1 - m) 0) eqn:E3.
  - apply Qeq_bool_iff in E3. split.
    + intros E; injection E as <-. split; [reflexivity|]. apply M1. lra.
    + intros [-> _]. reflexivity.
  - apply Qeq_bool_neq in E3. split; [discriminate|].
    intros [_ H]. exfalso. apply E3. rewrite (M2 H). reflexivity.
Qed.

(** The three branches of [cf_or]. *)
Ltac cf_or_cases a b :=
  let E1 := fresh "E" in let E2 := fresh "E" in
  let P1 := fresh "P" in let P2 := fresh "P" in
  unfold cf_or;
  destruct (Qltb 0 a && Qltb 0 b) eqn:E1;
  [ apply andb_true_iff in E1 as [P1 P2]; apply Qltb_true in P1, P2
  | destruct (Qltb a 0 && Qltb b 0) eqn:E2;
    [ apply andb_true_iff in E2 as [P1 P2]; apply Qltb_true in P1, P2
    | apply andb_false_iff in E1, E2; rewrite !Qltb_false in E1, E2 ] ].

(** When the combined certainty is the new certainty, and when it is
    the sum: at a null operand, at a certain new operand, and when the
    two cancel. *)
Lemma cf_or_coincides a b r :
  -1 <= a <= 1 -> -1 <= b <= 1 ->
  cf_or a b = Ok r ->
  (r == b <-> a == 0 \/ b == 1 \/ b == -1) /\
  (r == a + b <-> a == 0 \/ b == 0 \/ a + b == 0).
Proof.
  intros Ha Hb. cf_or_cases a b.
  - intros Er; injection Er as <-. split; split.
    + intros H. right. left. nra.
    + intros [H|[H|H]]; nra.
    + intros H. exfalso. nra.
    + intros [H|[H|H]]; nra.
  - intros Er; injection Er as <-. split; split.
    + intros H. right. right. nra.
    + intros [H|[H|H]]; nra.
    + intros H. exfalso. nra.
    + intros [H|[H|H]]; nra.
  - cbv zeta. set (m := Qmin (Qabs a) (Qabs b)).
    destruct (Qeq_bool (1 - m) 0) eqn:E3; [discriminate|].
    apply Qeq_bool_neq in E3.
    intros Er; injection Er as <-.
    assert (D : (a + b) / (1 - m) * (1 - m) == a + b) by (field; exact E3).
    set (r := (a + b) / (1 - m)) in *. clearbody r.
    assert (Hm : (0 <= a /\ m == a \/ a <= 0 /\ m == - a \/
                  0 <= b /\ m == b \/ b <= 0 /\ m == - b) /\
                 m <= Qabs a /\ m <= Qabs b /\ 0 <= m).
    { unfold m.
      destruct (Q.min_spec (Qabs a) (Qabs b)) as [[L Em]|[L Em]];
        rewrite Em; clear Em; revert L;
        apply (Qabs_case a); apply (Qabs_case b); intros;
        (split; [|repeat split; lra]);
        first [ left; split; lra | right; left; split; lra
              | right; right; left; split; lra
              | right; right; right; split; lra ]. }
    destruct Hm as (Hc & La & Lb & M0).
    assert (M1 : m < 1).
    { assert (m <= 1) by (revert La; apply (Qabs_case a); intros; lra).
      destruct (Q_dec m 1) as [[?|?]|?]; [assumption|lra|].
      exfalso. apply E3. lra. }
    clear E3.
    revert La Lb. apply (Qabs_case a); apply (Qabs_case b); intros Sb Sa La Lb;
      destruct (Q_dec a 0) as [[Za|Za]|Za]; destruct (Q_dec b 0) as [[Zb|Zb]|Zb];
      try (exfalso; lra);
      (destruct Hc as [[Hs Hc]|[[Hs Hc]|[[Hs Hc]|[Hs Hc]]]]; try (exfalso; lra));
      (split; split;
       [ intros H; first [ now left | right; left; nra | right; right; nra ]
       | intros [H|[H|H]]; nra
       | intros H; first [ now left | right; left; nra | right; right; nra ]
       | intros [H|[H|H]]; nra ]).
Qed.

(** C8.  For certainty factors [a] and [b] in [[-1, 1]], other than the
    two singular pairs [(1, -1)] and [(-1, 1)], [cf_or(a, b)] does not
    raise (its only exception is the division by a zero denominator) and
    its result is again in [[-1, 1]]. *)
Theorem cf_or_closed :
  forall a b : Q,
    -1 <= a <= 1 -> -1 <= b <= 1 ->
    ~ (a == 1 /\ b == -1) -> ~ (a == -1 /\ b == 1) ->
    exists r, cf_or a b = Ok r /\ -1 <= r <= 1.
Proof.
  intros a b Ha Hb N1 N2. unfold cf_or.
  assert (D1 : a < 1 \/ -1 < b).
  { destruct (Qlt_le_dec a 1) as [|L1]; [now left|].
    destruct (Qlt_le_dec (-1) b) as [|L2]; [now right|].
    exfalso; apply N1; split; lra. }
  assert (D2 : -1 < a \/ b < 1).
  { destruct (Qlt_le_dec (-1) a) as [|L1]; [now left|].
    destruct (Qlt_le_dec b 1) as [|L2]; [now right|].
    exfalso; apply N2; split; lra. }
  destruct (Qltb 0 a && Qltb 0 b) eqn:E1.
  - apply andb_true_iff in E1 as [P1 P2]. apply Qltb_true in P1, P2.
    eexists; split; [reflexivity|]. nra.
  - destruct (Qltb a 0 && Qltb b 0) eqn:E2.
    + apply andb_true_iff in E2 as [P1 P2]. apply Qltb_true in P1, P2.
      eexists; split; [reflexivity|]. nra.
    + apply andb_false_iff in E1, E2. rewrite !Qltb_false in E1, E2.
      set (m := Qmin (Qabs a) (Qabs b)).
      assert (Hm : m < 1 /\ a + b <= 1 - m /\ -(1 - m) <= a + b).
      { unfold m.
        destruct (Q.min_spec (Qabs a) (Qabs b)) as [[L Em]|[L Em]];
          rewrite Em; clear Em; revert L;
          apply (Qabs_case a); apply (Qabs_case b); intros; lra. }
      destruct Hm as (M1 & M2 & M3).
      destruct (Qeq_bool (1 - m) 0) eqn:E3.
      * apply Qeq_bool_iff in E3. lra.
      * eexists; split; [reflexivity|]. split.
        -- apply Qle_shift_div_l; lra.
        -- apply Qle_shift_div_r; lra.
Qed.

Lemma cf_or_closed_witness :
  exists r, cf_or (1 # 2) (-3 # 4) = Ok r /\ -1 <= r <= 1.
Proof.
  apply (cf_or_closed (1 # 2) (-3 # 4)).
  - split; discriminate.
  - split; discriminate.
  - intros [H _]; discriminate H.
  - intros [H _]; discriminate H.
Defined.

(** ** Fact store *)

Lemma items_of_set k x st : items_of k (Dict.set key_eqb k x st) = x.
Proof.
  unfold items_of. now rewrite get_set_same by apply key_eqb_refl.
Qed.

(** One [update_cf]: it combines what is stored (unknown when nothing
    is) with the new certainty, and raises when [cf_or] does. *)
Lemma update_cf_run p i v c s :
  match cf_or (match stored p i v s with
               | Some x => x
               | None => CF.unknown
               end) c with
  | Ok u => outcome_of (update_cf p i v c) s = Ok tt /\
            stored p i v (state_after (update_cf p i v c) s) = Some u
  | Raise x => outcome_of (update_cf p i v c) s = Raise x
  end.
Proof.
  unfold stored, update_cf, get_cf, get_vals, mutate, items, bind, ret, modify,
    gets, lift, state_after, outcome_of. cbn.
  set (st1 := snd (Dict.setdefault key_eqb (p, i) ([] : vals_t) (known_values s))).
  assert (E1 : items_of (p, i) st1 = items_of (p, i) (known_values s)).
  { unfold st1, items_of, Dict.setdefault.
    destruct (Dict.get key_eqb (p, i) (known_values s)) eqn:E; cbn [snd].
    - now rewrite E.
    - now rewrite get_set_same by apply key_eqb_refl. }
  rewrite E1. set (d0 := items_of (p, i) (known_values s)).
  rewrite items_of_set.
  assert (E2 : fst (Dict.setdefault value_eqb v CF.unknown
                      (snd (Dict.setdefault value_eqb v CF.unknown d0))) =
               match Dict.get value_eqb v d0 with
               | Some x => x
               | None => CF.unknown
               end).
  { unfold Dict.setdefault at 1.
    rewrite get_setdefault by apply value_eqb_refl.
    apply fst_setdefault. }
  rewrite E2.
  destruct (cf_or _ c) as [u|x]; cbn; [|reflexivity].
  split; [reflexivity|].
  rewrite items_of_set. apply get_set_same, value_eqb_refl.
Qed.

(** ** Running computations *)

Lemma run_eq {A} (m : M A) s : m s = (outcome_of m s, state_after m s).
Proof. unfold outcome_of, state_after. now destruct (m s). Qed.

Lemma bind_ok {A B} (m : M A) (k : A -> M B) s a s1 :
  m s = (Ok a, s1) -> bind m k s = k a s1.
Proof. unfold bind. now intros ->. Qed.

Lemma bind_raise {A B} (m : M A) (k : A -> M B) s e s1 :
  m s = (Raise e, s1) -> bind m k s = (Raise e, s1).
Proof. unfold bind. now intros ->. Qed.

(** ** Accumulating twice *)

(** [get_vals] creates an entry lazily; no reading of the store sees
    the difference. *)
Lemma items_of_touch k k' st :
  items_of k (snd (Dict.setdefault key_eqb k' ([] : vals_t) st)) = items_of k st.
Proof.
  unfold Dict.setdefault.
  destruct (Dict.get key_eqb k' st) eqn:E; cbn [snd]; [reflexivity|].
  rewrite set_absent by exact E. unfold items_of. rewrite get_app_last.
  destruct (Dict.get key_eqb k st); [reflexivity|].
  now destruct (key_eqb k' k).
Qed.

(** What [update_cf] does to the store, as a function. *)
Lemma update_cf_state p i v c s :
  known_values (state_after (update_cf p i v c) s) =
  let st1 := snd (Dict.setdefault key_eqb (p, i) ([] : vals_t) (known_values s)) in
  let d1 := snd (Dict.setdefault value_eqb v CF.unknown (items_of (p, i) st1)) in
  let st2 := Dict.set key_eqb (p, i) d1 st1 in
  match cf_or (existing p i v s) c with
  | Ok u => Dict.set key_eqb (p, i) (Dict.set value_eqb v u d1) st2
  | Raise _ => st2
  end.
Proof.
  cbv zeta.
  set (st1 := snd (Dict.setdefault key_eqb (p, i) ([] : vals_t) (known_values s))).
  assert (E1 : items_of (p, i) st1 = items_of (p, i) (known_values s))
    by apply items_of_touch.
  set (d1 := snd (Dict.setdefault value_eqb v CF.unknown (items_of (p, i) st1))).
  assert (E2 : fst (Dict.setdefault value_eqb v CF.unknown d1) = existing p i v s).
  { rewrite fst_setdefault. unfold d1.
    rewrite get_setdefault by apply value_eqb_refl.
    rewrite fst_setdefault, E1. reflexivity. }
  unfold update_cf, get_cf, get_vals, mutate, items, bind, ret,
    modify, gets, lift, state_after. cbn.
  fold st1. fold d1. rewrite items_of_set. rewrite E2.
  destruct (cf_or _ c) as [u|e]; cbn; [|reflexivity].
  set (st2 := @Dict.set key vals_t key_eqb (p, i) d1 st1).
  assert (E3 : snd (Dict.setdefault key_eqb (p, i) ([] : vals_t) st2) = st2).
  { unfold Dict.setdefault, st2.
    now rewrite get_set_same by apply key_eqb_refl. }
  rewrite E3. unfold st2 at 1. rewrite items_of_set. reflexivity.
Qed.

(** When [cf_or] raises, [update_cf] leaves the existing certainty
    stored. *)
Lemma update_cf_raise_keeps p i v c s e :
  cf_or (existing p i v s) c = Raise e ->
  outcome_of (update_cf p i v c) s = Raise e /\
  stored p i v (state_after (update_cf p i v c) s) = Some (existing p i v s).
Proof.
  intros E. pose proof (update_cf_run p i v c s) as R.
  fold (existing p i v s) in R.
  pose proof (update_cf_state p i v c s) as S. cbv zeta in S.
  rewrite E in R, S. split; [exact R|].
  unfold stored. rewrite S, items_of_set.
  rewrite get_setdefault by apply value_eqb_refl.
  rewrite fst_setdefault, items_of_touch. reflexivity.
Qed.

(** C5.  From a store with no evidence for [(p, i, v)], accumulating
    [c1] and then [c2] leaves [cf_or(c1, c2)] stored for [(p, i, v)]
    whenever [cf_or(c1, c2)] is defined; when it raises, the second
    accumulation raises the same exception and [c1] stays stored.  For
    certainty factors [cf_or] raises exactly at the singular pairs
    [(1, -1)] and [(-1, 1)], and the combined certainty is not always
    different from the overwrite and the sum: it equals [c2] exactly
    when [c1] is 0 or [c2] is 1 or -1, and [c1 + c2] exactly when one
    of the two is 0 or they cancel. *)
Theorem accumulate_twice_is_cf_or :
  forall (s : Shell) (p : string) (i : inst_ref) (v : value) (c1 c2 : Q),
    stored p i v s = None ->
    match cf_or c1 c2 with
    | Ok r =>
        outcome_of (update_cf p i v c1 ;; update_cf p i v c2) s = Ok tt /\
        stored p i v (state_after (update_cf p i v c1 ;; update_cf p i v c2) s)
          = Some r
    | Raise e =>
        outcome_of (update_cf p i v c1 ;; update_cf p i v c2) s = Raise e /\
        stored p i v (state_after (update_cf p i v c1 ;; update_cf p i v c2) s)
          = Some c1
    end /\
    (-1 <= c1 <= 1 -> -1 <= c2 <= 1 ->
     (forall e, cf_or c1 c2 = Raise e <->
        e = ZeroDivisionError /\
        ((c1 == 1 /\ c2 == -1) \/ (c1 == -1 /\ c2 == 1))) /\
     (forall r, cf_or c1 c2 = Ok r ->
        (r == c2 <-> c1 == 0 \/ c2 == 1 \/ c2 == -1) /\
        (r == c1 + c2 <-> c1 == 0 \/ c2 == 0 \/ c1 + c2 == 0))).
Proof.
  intros s p i v c1 c2 Hnone. split.
  - pose proof (update_cf_run p i v c1 s) as H1.
    rewrite Hnone, cf_or_unknown_l in H1. destruct H1 as [O1 S1].
    set (s1 := state_after (update_cf p i v c1) s) in *.
    assert (E : (update_cf p i v c1 ;; update_cf p i v c2) s =
                update_cf p i v c2 s1).
    { apply (@bind_ok unit unit (update_cf p i v c1)
                      (fun _ => update_cf p i v c2) s tt).
      rewrite run_eq. now rewrite O1. }
    assert (X : existing p i v s1 = c1) by (unfold existing; now rewrite S1).
    unfold outcome_of, state_after in *. rewrite E.
    destruct (cf_or c1 c2) as [r|e] eqn:Hor.
    + pose proof (update_cf_run p i v c2 s1) as H2.
      rewrite S1, Hor in H2. exact H2.
    + pose proof (update_cf_raise_keeps p i v c2 s1 e) as H2.
      rewrite X in H2. exact (H2 Hor).
  - intros R1 R2. split.
    + intros e. now apply cf_or_raise_iff.
    + intros r. now apply cf_or_coincides.
Qed.

Lemma accumulate_twice_is_cf_or_witness :
  stored "y" (Some ("c", 0%Z)) (VStr "hi") (new_shell []) = None /\
  cf_or (1 # 2) (1 # 2) = Ok ((1 # 2) + (1 # 2) - (1 # 2) * (1 # 2)) /\
  stored "y" (Some ("c", 0%Z)) (VStr "hi")
    (state_after (update_cf "y" (Some ("c", 0%Z)) (VStr "hi") (1 # 2) ;;
                  update_cf "y" (Some ("c", 0%Z)) (VStr "hi") (1 # 2))
       (new_shell []))
  = Some ((1 # 2) + (1 # 2) - (1 # 2) * (1 # 2)).
Proof.
  split; [reflexivity|]. split; [reflexivity|].
  exact (proj2 (proj1 (accumulate_twice_is_cf_or (new_shell []) "y"
                         (Some ("c", 0%Z)) (VStr "hi") (1 # 2) (1 # 2)
                         eq_refl))).
Defined.

(** C5, where the claim fails.  Three pairs of certainty factors
    accumulated on an empty store: at [(1, -1)] [cf_or] has no value,
    the second accumulation raises [ZeroDivisionError] and 1 stays
    stored; at [(0, 0.3)] what is stored is 0.3, which is both [c2] and
    [c1 + c2]; at [(0.5, 1)] what is stored equals 1, which is [c2]. *)
Lemma accumulate_twice_coincides_or_raises :
  let hi := VStr "hi" in
  let i := Some ("c", 0%Z) in
  let twice c1 c2 := update_cf "y" i hi c1 ;; update_cf "y" i hi c2 in
  stored "y" i hi (new_shell []) = None /\
  (is_cf 1 = Datatypes.true /\ is_cf (-1) = Datatypes.true /\
   cf_or 1 (-1) = Raise ZeroDivisionError /\
   outcome_of (twice 1 (-1)) (new_shell []) = Raise ZeroDivisionError /\
   stored "y" i hi (state_after (twice 1 (-1)) (new_shell [])) = Some 1) /\
  (is_cf 0 = Datatypes.true /\ is_cf (3 # 10) = Datatypes.true /\
   outcome_of (twice 0 (3 # 10)) (new_shell []) = Ok tt /\
   stored "y" i hi (state_after (twice 0 (3 # 10)) (new_shell []))
     = Some (3 # 10) /\
   0 + (3 # 10) == 3 # 10) /\
  (is_cf (1 # 2) = Datatypes.true /\
   outcome_of (twice (1 # 2) 1) (new_shell []) = Ok tt /\
   exists r,
     stored "y" i hi (state_after (twice (1 # 2) 1) (new_shell [])) = Some r /\
     r == 1).
Proof.
  cbv zeta. split; [reflexivity|]. split; [|split].
  - repeat split; reflexivity.
  - repeat split; reflexivity.
  - split; [reflexivity|]. split; [reflexivity|].
    eexists. split; reflexivity.
Qed.

(** ** Rule engine *)

Lemma certainty_get_vals c p i s :
  certainty c (state_after (get_vals p i) s) = certainty c s.
Proof.
  unfold certainty, get_vals, state_after, bind, modify, ret. cbn.
  now rewrite items_of_touch.
Qed.

Lemma reject_loop_cons p ps s :
  reject_loop (p :: ps) s =
  let s1 := state_after (get_vals (c_param p) (Some (c_inst p))) s in
  if cf_false (certainty p s) then (Ok Datatypes.true, s1)
  else reject_loop ps s1.
Proof.
  cbn [reject_loop]. rewrite <- (certainty_get_vals p (c_param p) (Some (c_inst p)) s).
  unfold certainty, eval_condition, get_vals, items, state_after, bind, modify,
    gets, ret. cbn.
  now destruct (cf_false _).
Qed.

Lemma reject_loop_rejects ps :
  forall s,
    (exists p, In p ps /\ cf_false (certainty p s) = Datatypes.true) ->
    outcome_of (reject_loop ps) s = Ok Datatypes.true.
Proof.
  induction ps as [|q ps IH]; intros s (p & Hin & Hp); [destruct Hin|].
  unfold outcome_of. rewrite reject_loop_cons. cbv zeta.
  destruct (cf_false (certainty q s)) eqn:E; [reflexivity|].
  apply IH. exists p. split.
  - destruct Hin as [->|]; [congruence|assumption].
  - now rewrite certainty_get_vals.
Qed.

(** C6.  When the premises of a rule bind and one of them has a
    certainty against the known facts that is [cf_false], [applicable]
    returns [CF.false], and it does so whatever the hook is: the outcome
    and the state it leaves are those of the first loop, which has no
    hook, so the hook is run for no premise. *)
Theorem applicable_false_premise :
  forall (r : Rule) (find_out : option hook) (s : Shell) (ps : list condition),
    bind_conds (raw_premises r) (instances s) = Ok ps ->
    (exists p, In p ps /\ cf_false (certainty p s) = Datatypes.true) ->
    applicable r find_out s = (Ok CF.false, state_after (reject_loop ps) s).
Proof.
  intros r find_out s ps Hb Hex.
  pose proof (reject_loop_rejects ps s Hex) as Hr.
  unfold applicable, premises, bind. rewrite Hb.
  rewrite (run_eq (reject_loop ps) s), Hr. reflexivity.
Qed.

Lemma applicable_false_premise_witness :
  let s := state_after
             (instantiate "c" ;;
              update_cf "x" (Some ("c", 0%Z)) (VInt 15) CF.false)
             (Scenario.shell []) in
  let a := Cond "x" ("c", 0%Z) ge (VInt 10) in
  let ps := [a; Cond "a" ("c", 0%Z) eq (VStr "yes");
             Cond "b" ("c", 0%Z) eq (VStr "yes")] in
  bind_conds (raw_premises Scenario.rule3) (instances s) = Ok ps /\
  cf_false (certainty a s) = Datatypes.true /\
  applicable Scenario.rule3 (Some Scenario.raising_hook) s
    = (Ok CF.false, state_after (reject_loop ps) s).
Proof.
  cbv zeta. split; [reflexivity|]. split; [reflexivity|].
  apply (applicable_false_premise Scenario.rule3
           (Some Scenario.raising_hook)); [reflexivity|].
  eexists. split; [left; reflexivity|reflexivity].
Defined.

Section NotFired.
(** What a step may change. *)
Variable changes : Shell -> Shell -> Prop.
Hypothesis changes_refl : forall s, changes s s.
Hypothesis changes_trans :
  forall s t u, changes s t -> changes t u -> changes s u.
Hypothesis changes_get_vals :
  forall p i s, changes s (state_after (get_vals p i) s).

Lemma reject_loop_within ps :
  forall s, changes s (state_after (reject_loop ps) s).
Proof.
  induction ps as [|q ps IH]; intros s; [apply changes_refl|].
  unfold state_after. rewrite reject_loop_cons. cbv zeta.
  destruct (cf_false _); cbn [snd]; [apply changes_get_vals|].
  eapply changes_trans; [apply changes_get_vals | apply IH].
Qed.

Lemma eval_condition_within c values fo s :
  hook_within changes fo ->
  changes s (state_after (eval_condition c values fo) s).
Proof.
  intros Hh. unfold eval_condition, state_after, items, bind, gets, ret.
  destruct fo as [h|]; [|apply changes_refl].
  specialize (Hh h eq_refl (c_param c) (Some (c_inst c)) s).
  unfold state_after in Hh.
  destruct (h (c_param c) (Some (c_inst c)) s) as [[x|e] s1]; exact Hh.
Qed.

Lemma combine_loop_within fo ps :
  hook_within changes fo ->
  forall total s, changes s (state_after (combine_loop fo total ps) s).
Proof.
  intros Hh. induction ps as [|q ps IH]; intros total s; [apply changes_refl|].
  cbn [combine_loop]. unfold state_after, bind.
  pose proof (changes_get_vals (c_param q) (Some (c_inst q)) s) as H1.
  unfold state_after in H1.
  destruct (get_vals (c_param q) (Some (c_inst q)) s) as [[vals|e] s1];
    [|exact H1].
  pose proof (eval_condition_within q vals fo s1 Hh) as H2.
  unfold state_after in H2.
  destruct (eval_condition q vals fo s1) as [[c|e] s2];
    [|eapply changes_trans; eassumption].
  cbn [snd] in *.
  destruct (negb (cf_true (cf_and total c))).
  - eapply changes_trans; eassumption.
  - eapply changes_trans; [eassumption|].
    eapply changes_trans; [eassumption|]. apply IH.
Qed.

Lemma applicable_within r fo s :
  hook_within changes fo ->
  changes s (state_after (applicable r fo) s).
Proof.
  intros Hh. unfold applicable, premises, state_after, bind.
  destruct (bind_conds (raw_premises r) (instances s)) as [ps|e];
    [|apply changes_refl].
  pose proof (reject_loop_within ps s) as H1. unfold state_after in H1.
  destruct (reject_loop ps s) as [[[|]|e] s1]; cbn [snd] in *; try exact H1.
  destruct (bind_conds (raw_premises r) (instances s1)) as [ps'|e];
    [|exact H1].
  eapply changes_trans; [exact H1|].
  apply (combine_loop_within fo ps' Hh).
Qed.

(** C4, as amended.  When the effective certainty of a rule is not
    [cf_true], [apply] returns false and accumulates nothing: the state
    changes only by what the hook and the observer do and by the
    entries [get_vals] creates for the premises. *)
Theorem apply_not_fired :
  forall (r : Rule) (fo : option hook) (tr : option tracker) (s : Shell)
         (c : Q),
    hook_within changes fo ->
    tracker_within changes tr ->
    outcome_of (effective_certainty r fo tr) s = Ok c ->
    cf_true c = Datatypes.false ->
    outcome_of (apply r fo tr) s = Ok Datatypes.false /\
    changes s (state_after (apply r fo tr) s).
Proof.
  intros r fo tr s c Hh Ht Hc Hn.
  unfold effective_certainty, apply, outcome_of, state_after, bind in *.
  assert (H0 : changes s (snd (match tr with
                               | Some t => t r
                               | None => ret tt
                               end s))).
  { destruct tr as [t|]; [apply (Ht t eq_refl)|apply changes_refl]. }
  destruct (match tr with Some t => t r | None => ret tt end s)
    as [[[]|e] s0]; [|discriminate Hc].
  pose proof (applicable_within r fo s0 Hh) as H1. unfold state_after in H1.
  destruct (applicable r fo s0) as [[a|e] s1]; [|discriminate Hc].
  cbn in Hc. injection Hc as <-. rewrite Hn. cbn.
  split; [reflexivity|]. eapply changes_trans; eassumption.
Qed.
End NotFired.

Lemma same_facts_refl s : same_facts s s.
Proof. split; reflexivity. Qed.

Lemma same_facts_trans s t u : same_facts s t -> same_facts t u -> same_facts s u.
Proof.
  intros [F1 R1] [F2 R2]. split; [congruence|].
  intros k. now rewrite R2, R1.
Qed.

Lemma same_facts_get_vals p i s : same_facts s (state_after (get_vals p i) s).
Proof.
  unfold get_vals, state_after, bind, modify, ret. cbn. split; [reflexivity|].
  intros k. apply items_of_touch.
Qed.

Lemma apply_not_fired_witness :
  let s := state_after (instantiate "c") (Scenario.shell []) in
  outcome_of (effective_certainty Scenario.rule1 None None) s
    = Ok ((9 # 10) * CF.false) /\
  cf_true ((9 # 10) * CF.false) = Datatypes.false /\
  outcome_of (apply Scenario.rule1 None None) s = Ok Datatypes.false /\
  same_facts s (state_after (apply Scenario.rule1 None None) s).
Proof.
  cbv zeta. split; [reflexivity|]. split; [reflexivity|].
  apply (apply_not_fired same_facts same_facts_refl same_facts_trans
           same_facts_get_vals Scenario.rule1 None None _ ((9 # 10) * CF.false)).
  - intros h H; discriminate H.
  - intros t H; discriminate H.
  - reflexivity.
  - reflexivity.
Defined.

(** C4, as stated, fails: a rule that does not fire still leaves a new
    [(param, inst)] entry in the fact store, the one [get_vals] creates
    for its premise. *)
Lemma apply_not_fired_adds_entry :
  let s := state_after (instantiate "c") (Scenario.shell []) in
  outcome_of (effective_certainty Scenario.rule1 None None) s
    = Ok ((9 # 10) * CF.false) /\
  cf_true ((9 # 10) * CF.false) = Datatypes.false /\
  outcome_of (apply Scenario.rule1 None None) s = Ok Datatypes.false /\
  known_values s = [] /\
  known_values (state_after (apply Scenario.rule1 None None) s)
    = [(("x", Some ("c", 0%Z)), [])].
Proof.
  cbv zeta. repeat split; reflexivity.
Qed.

(** ** Rule-set firing *)

Lemma map_m_cons {A B} (f : A -> M B) x xs s :
  map_m f (x :: xs) s =
  match f x s with
  | (Ok y, s1) =>
      match map_m f xs s1 with
      | (Ok ys, s2) => (Ok (y :: ys), s2)
      | (Raise e, s2) => (Raise e, s2)
      end
  | (Raise e, s1) => (Raise e, s1)
  end.
Proof.
  cbn [map_m]. unfold bind, ret.
  destruct (f x s) as [[y|e] s1]; [|reflexivity].
  now destruct (map_m f xs s1) as [[ys|e] s2].
Qed.

(** C1, as amended.  [use_rules] applies every rule of the list, in
    order, each from the state the one before left, whether or not an
    earlier rule fired, and returns true exactly when at least one
    fired. *)
Theorem use_rules_applies_every_rule :
  forall (r : Rule) (rs : list Rule) (fo : option hook) (tr : option tracker)
         (s : Shell),
    use_rules [] fo tr s = (Ok Datatypes.false, s) /\
    use_rules (r :: rs) fo tr s =
    match apply r fo tr s with
    | (Ok fired, s1) =>
        match use_rules rs fo tr s1 with
        | (Ok later, s2) => (Ok (fired || later), s2)
        | (Raise e, s2) => (Raise e, s2)
        end
    | (Raise e, s1) => (Raise e, s1)
    end.
Proof.
  intros r rs fo tr s. split; [reflexivity|].
  unfold use_rules, bind at 1. rewrite map_m_cons.
  destruct (apply r fo tr s) as [[fired|e] s1]; [|reflexivity].
  unfold bind, ret.
  now destruct (map_m _ rs s1) as [[bs|e] s2].
Qed.

(** C1, as stated, fails: with the value 15 known for [x], the first of
    two rules for [y] fires, and the second is applied all the same: the
    observer is told of it and its conclusion is accumulated. *)
Lemma use_rules_applies_rule_after_firing :
  let s := state_after
             (instantiate "c" ;;
              update_cf "x" (Some ("c", 0%Z)) (VInt 15) CF.true)
             (Scenario.shell []) in
  let tr := Some (fun r => _set_current_rule (Current r)) in
  let rs := [Scenario.rule1; Scenario.rule2] in
  outcome_of (apply Scenario.rule1 None tr) s = Ok Datatypes.true /\
  outcome_of (use_rules rs None tr) s = Ok Datatypes.true /\
  current_rule (state_after (use_rules rs None tr) s) = Current Scenario.rule2 /\
  known_values (state_after (apply Scenario.rule1 None tr) s)
    = [(("x", Some ("c", 0%Z)), [(VInt 15, 1)]);
       (("y", Some ("c", 0%Z)), [(VStr "hi", 9 # 10)])] /\
  known_values (state_after (use_rules rs None tr) s)
    = [(("x", Some ("c", 0%Z)), [(VInt 15, 1)]);
       (("y", Some ("c", 0%Z)), [(VStr "hi", 9 # 10); (VStr "lo", 5 # 10)])].
Proof.
  cbv zeta. repeat split; reflexivity.
Qed.

(** ** Inference engine *)

Section EngineFacts.
Variable float : string -> outcome Q.

(** C7.  When [(p, i)] is in [known], [find_out(p, i)] returns true
    and the engine is exactly as before: nothing was asked or written,
    no rule was looked up, told to the observer or applied, and the
    fact store, [known] and [asked] are unchanged.  This holds at
    every depth of nesting. *)
Theorem find_out_known :
  forall (fuel : nat) (p : string) (inst : inst_ref) (s : Shell),
    mem (p, target inst s) (known s) = Datatypes.true ->
    find_out float fuel p inst s = (Ok (Some Datatypes.true), s).
Proof.
  intros fuel p inst s H. unfold target in H.
  destruct fuel; cbn [find_out]; cbv beta zeta;
    match goal with
    | |- (if ?b then _ else _) = _ =>
        replace b with Datatypes.true by (symmetry; exact H)
    end; reflexivity.
Qed.

End EngineFacts.

Lemma find_out_known_witness :
  let s := state_after (execute Decimal.float 1 ["c"]) (Scenario.shell ["15"]) in
  mem ("x", target (Some ("c", 0%Z)) s) (known s) = Datatypes.true /\
  find_out Decimal.float 0 "x" (Some ("c", 0%Z)) s
    = (Ok (Some Datatypes.true), s).
Proof.
  cbv zeta. split; [reflexivity|].
  apply (find_out_known Decimal.float 0 "x" (Some ("c", 0%Z))). reflexivity.
Defined.


(** C3.  In the first scenario, with the port answering [15] to the
    question for [x], [execute(["c"])] returns the mapping with the one
    entry for the instance [(c, 0)], in which [y] has the value map
    [{hi: 0.9}].  This is so for every conversion of certainty tokens,
    whatever the port would answer next, and at every depth allowed for
    nested calls from 1 on. *)
Theorem execute_scenario_1 :
  forall (float : string -> outcome Q) (fuel : nat) (rest : list string),
    outcome_of (execute float (S fuel) ["c"]) (Scenario.shell ("15" :: rest))
    = Ok [(Some ("c", 0%Z), [("y", [(VStr "hi", 9 # 10)])])].
Proof.
  intros float fuel rest. destruct fuel; reflexivity.
Qed.

(** ** Independence of the log *)

Ltac same_engine_fields :=
  match goal with
  | H : same_engine ?s ?t |- _ =>
      unfold same_engine in H; destruct s, t; cbn in H;
      injection H as -> -> -> -> -> -> -> -> -> ->
  end.

Lemma log_blind_ret {A} (a : A) : log_blind (ret a).
Proof. intros s t H. now split. Qed.

Lemma log_blind_lift {A} (o : outcome A) : log_blind (lift o).
Proof. intros s t H. now split. Qed.

Lemma log_blind_bind {A B} (m : M A) (k : A -> M B) :
  log_blind m -> (forall a, log_blind (k a)) -> log_blind (bind m k).
Proof.
  intros Hm Hk s t H. destruct (Hm s t H) as [O S].
  unfold outcome_of, state_after, bind in *.
  destruct (m s) as [[a|e] s1], (m t) as [[b|e'] t1]; cbn in *;
    try discriminate; [|injection O as ->; now split].
  injection O as ->. now apply Hk.
Qed.

Lemma log_blind_try_except {A} (m h : M A) :
  log_blind m -> log_blind h -> log_blind (try_except m h).
Proof.
  intros Hm Hh s t H. destruct (Hm s t H) as [O S].
  unfold outcome_of, state_after, try_except in *.
  destruct (m s) as [[a|e] s1], (m t) as [[b|e'] t1]; cbn in *;
    try discriminate; [split; assumption|].
  now apply Hh.
Qed.

Lemma log_blind_step {A} (f : Shell -> outcome A) (g : Shell -> Shell) :
  (forall s t, same_engine s t -> f s = f t /\ same_engine (g s) (g t)) ->
  log_blind (fun s => (f s, g s)).
Proof. intros Hf s t H. exact (Hf s t H). Qed.

Ltac blind_step :=
  apply log_blind_step; intros; same_engine_fields; split; reflexivity.

Lemma log_blind_write m : log_blind (write m).
Proof. unfold write, modify. blind_step. Qed.

Lemma log_blind_modify (f : Shell -> Shell) :
  (forall s t, same_engine s t -> same_engine (f s) (f t)) ->
  log_blind (modify f).
Proof. intros Hf s t H. split; [reflexivity|]. now apply Hf. Qed.

Lemma log_blind_for_each {A} (f : A -> M unit) xs :
  (forall x, log_blind (f x)) -> log_blind (for_each f xs).
Proof.
  intros Hf. induction xs as [|x xs IH]; cbn [for_each].
  - apply log_blind_ret.
  - apply log_blind_bind; auto.
Qed.

Lemma log_blind_map_m {A B} (f : A -> M B) xs :
  (forall x, log_blind (f x)) -> log_blind (map_m f xs).
Proof.
  intros Hf. induction xs as [|x xs IH]; cbn [map_m].
  - apply log_blind_ret.
  - apply log_blind_bind; [auto|]. intros y.
    apply log_blind_bind; [auto|]. intros ys. apply log_blind_ret.
Qed.

Create HintDb blind.
#[local] Hint Resolve log_blind_ret log_blind_lift log_blind_write
  log_blind_for_each log_blind_map_m : blind.

Ltac blind_steps :=
  repeat first
    [ progress auto with blind
    | apply log_blind_bind; [|intros]
    | apply log_blind_for_each; intros
    | apply log_blind_map_m; intros
    | apply log_blind_try_except
    | blind_step
    | match goal with
      | |- log_blind (if ?b then _ else _) => destruct b
      | |- log_blind (match ?x with _ => _ end) => destruct x
      | |- log_blind (let (_, _) := ?x in _) => destruct x
      end ].

Ltac blind := solve [blind_steps].

Lemma log_blind_get_vals p i : log_blind (get_vals p i).
Proof. unfold get_vals, modify. blind. Qed.

Lemma log_blind_items r : log_blind (items r).
Proof. unfold items, gets. blind. Qed.

Lemma log_blind_mutate r f : log_blind (mutate r f).
Proof. unfold mutate, modify. blind. Qed.

#[local] Hint Resolve log_blind_get_vals log_blind_items log_blind_mutate : blind.

Lemma log_blind_update_cf p i v c : log_blind (update_cf p i v c).
Proof. unfold update_cf, get_cf. blind. Qed.

Lemma log_blind_premises r : log_blind (premises r).
Proof. unfold premises. blind. Qed.

Lemma log_blind_conclusions r : log_blind (conclusions r).
Proof. unfold conclusions. blind. Qed.

#[local] Hint Resolve log_blind_update_cf log_blind_premises log_blind_conclusions : blind.

Lemma log_blind_eval_condition c values fo :
  blind_hook fo -> log_blind (eval_condition c values fo).
Proof.
  intros Hh. unfold eval_condition.
  destruct fo as [h|]; [specialize (Hh h eq_refl)|]; blind.
Qed.

#[local] Hint Resolve log_blind_eval_condition : blind.

Lemma blind_hook_none : blind_hook None.
Proof. intros h H; discriminate H. Qed.
#[local] Hint Resolve blind_hook_none : blind.

Lemma log_blind_reject_loop ps : log_blind (reject_loop ps).
Proof. induction ps as [|p ps IH]; cbn [reject_loop]; blind. Qed.

Lemma log_blind_combine_loop fo ps :
  blind_hook fo -> forall total, log_blind (combine_loop fo total ps).
Proof.
  intros Hh. induction ps as [|p ps IH]; intros total; cbn [combine_loop]; blind.
Qed.

#[local] Hint Resolve log_blind_reject_loop log_blind_combine_loop : blind.

Lemma log_blind_applicable r fo : blind_hook fo -> log_blind (applicable r fo).
Proof. intros Hh. unfold applicable. blind. Qed.
#[local] Hint Resolve log_blind_applicable : blind.

Lemma log_blind_apply r fo tr :
  blind_hook fo -> blind_tracker tr -> log_blind (apply r fo tr).
Proof.
  intros Hh Ht. unfold apply.
  destruct tr as [t|]; [specialize (Ht t eq_refl)|]; blind.
Qed.
#[local] Hint Resolve log_blind_apply : blind.

Lemma log_blind_use_rules rs fo tr :
  blind_hook fo -> blind_tracker tr -> log_blind (use_rules rs fo tr).
Proof. intros Hh Ht. unfold use_rules. blind. Qed.

Lemma log_blind_get_rules p : log_blind (get_rules p).
Proof.
  unfold get_rules. intros s t H. same_engine_fields.
  unfold outcome_of, state_after. cbn.
  destruct (Dict.setdefault _ _ _ _); now split.
Qed.

Lemma log_blind_get_param p : log_blind (get_param p).
Proof.
  unfold get_param. intros s t H. same_engine_fields.
  unfold outcome_of, state_after. cbn.
  destruct (Dict.setdefault _ _ _ _); now split.
Qed.

Lemma log_blind_set_current_rule m : log_blind (_set_current_rule m).
Proof. unfold _set_current_rule, modify. blind. Qed.

#[local] Hint Resolve log_blind_use_rules log_blind_get_rules log_blind_get_param
  log_blind_set_current_rule : blind.

Lemma log_blind_sort_premises ps : log_blind (sort_premises ps).
Proof. induction ps as [|p ps IH]; cbn [sort_premises]; blind. Qed.
#[local] Hint Resolve log_blind_sort_premises : blind.

Lemma log_blind_gets_current_rule : log_blind (gets current_rule).
Proof. unfold gets. blind. Qed.
#[local] Hint Resolve log_blind_gets_current_rule : blind.

Lemma log_blind_print_why p : log_blind (print_why p).
Proof. unfold print_why. blind. Qed.
#[local] Hint Resolve log_blind_print_why : blind.

Section Blind.
Variable float : string -> outcome Q.

Lemma log_blind_accept_reply p i resp : log_blind (accept_reply float p i resp).
Proof. unfold accept_reply. blind. Qed.
Hint Resolve log_blind_accept_reply : blind.

Lemma log_blind_ask_loop p i script : log_blind (ask_loop float p i script).
Proof.
  induction script as [|resp script IH]; cbn [ask_loop]; unfold modify at 1.
  - blind.
  - apply log_blind_bind; [blind|]. intros _.
    apply log_blind_bind; [unfold modify; blind|]. intros _. blind.
Qed.
Hint Resolve log_blind_ask_loop : blind.

Lemma log_blind_ask_values p i : log_blind (ask_values float p i).
Proof.
  unfold ask_values. apply log_blind_bind; [unfold gets; blind|].
  intros again. destruct again; [blind|].
  apply log_blind_bind; [unfold modify; blind|]. intros _.
  destruct i as [i|]; [|blind].
  apply log_blind_bind; [unfold gets; blind|]. intros script. blind.
Qed.
Hint Resolve log_blind_ask_values : blind.

Lemma log_blind_por a b : log_blind a -> log_blind b -> log_blind (por a b).
Proof. intros Ha Hb. unfold por. blind. Qed.
Hint Resolve log_blind_por : blind.

Lemma log_blind_find_out fuel :
  forall p i, log_blind (find_out float fuel p i).
Proof.
  induction fuel as [|fuel IH]; intros p i s t H;
    assert (E : current_inst s = current_inst t /\ known s = known t)
      by (same_engine_fields; now split);
    destruct E as [Ei Ek];
    unfold outcome_of, state_after; cbn [find_out]; cbv beta zeta;
    rewrite Ei, Ek;
    set (tg := match i with Some _ => _ | None => _ end);
    clearbody tg; clear Ei Ek;
    destruct (mem _ (known t)); try (now split).
  revert s t H.
  match goal with |- forall s t, _ -> fst (?m s) = _ /\ _ =>
    change (log_blind m) end.
  assert (Hh : blind_hook (Some (find_out float fuel))).
  { intros h E. injection E as <-. exact IH. }
  assert (Ht : blind_tracker (Some (fun r => _set_current_rule (Current r)))).
  { intros h E. injection E as <-. intros r. blind. }
  apply log_blind_bind; [blind|]. intros prm.
  apply log_blind_bind.
  - destruct (ask_first prm); apply log_blind_por; blind.
  - intros success. apply log_blind_bind; [|blind].
    destruct (truthy success); [unfold modify|]; blind.
Qed.
Hint Resolve log_blind_find_out : blind.

Lemma log_blind_snapshot ps :
  forall result, log_blind (snapshot ps result).
Proof.
  induction ps as [|p ps IH]; intros result; cbn [snapshot]; [blind|].
  apply log_blind_bind; [unfold gets; blind|]. intros ci. blind.
Qed.
Hint Resolve log_blind_snapshot : blind.

Lemma log_blind_instantiate n : log_blind (instantiate n).
Proof.
  unfold instantiate. apply log_blind_bind; [blind|]. intros ctx.
  destruct (ctx_instantiate ctx) as [inst ctx']. unfold modify. blind.
Qed.
Hint Resolve log_blind_instantiate : blind.

Lemma log_blind_execute_loop fuel names :
  forall results, log_blind (execute_loop float fuel names results).
Proof.
  induction names as [|n names IH]; intros results; cbn [execute_loop];
    [blind|].
  apply log_blind_bind; [blind|]. intros ctx.
  apply log_blind_bind; [blind|]. intros _.
  apply log_blind_bind; [blind|]. intros _.
  apply log_blind_bind; [blind|]. intros _.
  apply log_blind_bind; [blind|]. intros _.
  apply log_blind_bind; [blind|]. intros _.
  apply log_blind_bind; [|blind].
  destruct (goals ctx); [blind|].
  apply log_blind_bind; [blind|]. intros result.
  apply log_blind_bind; [unfold gets; blind|]. intros ci. blind.
Qed.
Hint Resolve log_blind_execute_loop : blind.
End Blind.

(** ** The invariant of the fact store *)

Section DictMore.
Variables K V : Type.
Variable eqb : K -> K -> bool.

Lemma get_set_cases (k k' : K) (v : V) (d : Dict.t K V) :
  Dict.get eqb k (Dict.set eqb k' v d) = Some v \/
  Dict.get eqb k (Dict.set eqb k' v d) = Dict.get eqb k d.
Proof.
  induction d as [|[k'' v''] d IH]; cbn.
  - destruct (eqb k' k); auto.
  - destruct (eqb k'' k') eqn:E; cbn; destruct (eqb k'' k); auto.
Qed.
End DictMore.

Lemma cf_invariant_items s :
  cf_invariant s <-> forall k, vals_ok (items_of k (known_values s)).
Proof.
  unfold cf_invariant, stored, vals_ok, in_range. split.
  - intros H [p i] v c. apply H.
  - intros H p i v c. apply (H (p, i)).
Qed.

Lemma vals_ok_nil : vals_ok [].
Proof. intros v c H. discriminate H. Qed.

Lemma vals_ok_set d v u :
  vals_ok d -> in_range u -> vals_ok (Dict.set value_eqb v u d).
Proof.
  intros Hd Hu v' c H.
  destruct (get_set_cases _ _ value_eqb v' v u d) as [E|E]; rewrite E in H.
  - now injection H as <-.
  - eapply Hd; eassumption.
Qed.

Lemma vals_ok_setdefault d v :
  vals_ok d -> vals_ok (snd (Dict.setdefault value_eqb v CF.unknown d)).
Proof.
  intros Hd. unfold Dict.setdefault.
  destruct (Dict.get value_eqb v d); cbn [snd]; [assumption|].
  apply vals_ok_set; [assumption|]. split; discriminate.
Qed.

Lemma items_of_set_cases k k' x st :
  items_of k (Dict.set key_eqb k' x st) = x \/
  items_of k (Dict.set key_eqb k' x st) = items_of k st.
Proof.
  unfold items_of.
  destruct (get_set_cases _ _ key_eqb k k' x st) as [E|E]; rewrite E; auto.
Qed.

Lemma keeps_ret {A} (a : A) (Q : A -> Prop) : Q a -> keeps (ret a) Q.
Proof.
  intros HQ s Hs. split; [exact Hs|].
  intros b E. now injection E as <-.
Qed.

Lemma keeps_weaken {A} (m : M A) (Q R : A -> Prop) :
  keeps m Q -> (forall a, Q a -> R a) -> keeps m R.
Proof.
  intros Hm HQ s Hs. destruct (Hm s Hs) as [I O]. split; auto.
Qed.

Lemma keeps_bind {A B} (m : M A) (k : A -> M B) (Q : A -> Prop) (R : B -> Prop) :
  keeps m Q -> (forall a, Q a -> keeps (k a) R) -> keeps (bind m k) R.
Proof.
  intros Hm Hk s Hs. destruct (Hm s Hs) as [I O].
  unfold outcome_of, state_after, bind in *.
  destruct (m s) as [[a|e] s1]; cbn in *.
  - apply (Hk a (O a eq_refl) s1 I).
  - split; [exact I|]. intros b E. discriminate E.
Qed.

Lemma keeps_reader {A} (f : Shell -> outcome A) :
  keeps (fun s => (f s, s)) (fun _ => True).
Proof. intros s Hs. split; [exact Hs|trivial]. Qed.

Lemma keeps_for_each {A} (f : A -> M unit) xs :
  (forall x, keeps (f x) (fun _ => True)) ->
  keeps (for_each f xs) (fun _ => True).
Proof.
  intros Hf. induction xs as [|x xs IH]; cbn [for_each].
  - now apply keeps_ret.
  - eapply keeps_bind; [apply Hf|]. intros _ _. exact IH.
Qed.


Lemma keeps_get_vals p i : keeps (get_vals p i) (fun _ => True).
Proof.
  intros s Hs. split; [|trivial].
  apply cf_invariant_items. intros k.
  unfold get_vals, state_after, bind, modify, ret. cbn.
  rewrite items_of_touch. now apply cf_invariant_items.
Qed.

Lemma keeps_items r : keeps (items r) vals_ok.
Proof.
  intros s Hs. split; [exact Hs|].
  intros d E. unfold items, gets, outcome_of in E. cbn in E.
  injection E as <-. now apply cf_invariant_items.
Qed.

Lemma keeps_mutate r f :
  (forall d, vals_ok d -> vals_ok (f d)) -> keeps (mutate r f) (fun _ => True).
Proof.
  intros Hf s Hs. split; [|trivial].
  apply cf_invariant_items. intros k.
  unfold mutate, state_after, modify. cbn.
  pose proof (proj1 (cf_invariant_items s) Hs) as H.
  destruct (items_of_set_cases k r (f (items_of r (known_values s)))
              (known_values s)) as [E|E]; rewrite E; auto.
Qed.

Lemma keeps_get_cf p i v : keeps (get_cf p i v) in_range.
Proof.
  unfold get_cf.
  eapply keeps_bind; [apply keeps_get_vals|]. intros vals _.
  eapply keeps_bind; [apply keeps_mutate; intros d; apply vals_ok_setdefault|].
  intros _ _.
  eapply keeps_bind; [apply keeps_items|]. intros d Hd.
  apply keeps_ret. rewrite fst_setdefault.
  destruct (Dict.get value_eqb v d) eqn:E; [eapply Hd; eassumption|].
  split; discriminate.
Qed.

Lemma cf_or_in_range a b r :
  in_range a -> in_range b -> cf_or a b = Ok r -> in_range r.
Proof.
  unfold in_range, cf_or. intros Ha Hb.
  destruct (Qltb 0 a && Qltb 0 b) eqn:E1.
  - apply andb_true_iff in E1 as [P1 P2]. apply Qltb_true in P1, P2.
    intros E; injection E as <-. nra.
  - destruct (Qltb a 0 && Qltb b 0) eqn:E2.
    + apply andb_true_iff in E2 as [P1 P2]. apply Qltb_true in P1, P2.
      intros E; injection E as <-. nra.
    + apply andb_false_iff in E1, E2. rewrite !Qltb_false in E1, E2.
      set (m := Qmin (Qabs a) (Qabs b)).
      assert (Hm : m <= 1 /\ a + b <= 1 - m /\ -(1 - m) <= a + b).
      { unfold m.
        destruct (Q.min_spec (Qabs a) (Qabs b)) as [[L Em]|[L Em]];
          rewrite Em; clear Em; revert L;
          apply (Qabs_case a); apply (Qabs_case b); intros; lra. }
      destruct Hm as (M1 & M2 & M3).
      destruct (Qeq_bool (1 - m) 0) eqn:E3; [intros E; discriminate E|].
      apply Qeq_bool_neq in E3.
      intros E; injection E as <-. split.
      * apply Qle_shift_div_l; lra.
      * apply Qle_shift_div_r; lra.
Qed.

Lemma keeps_lift_cf_or a b :
  in_range a -> in_range b -> keeps (lift (cf_or a b)) in_range.
Proof.
  intros Ha Hb s Hs. split; [exact Hs|].
  intros r E. change (cf_or a b = Ok r) in E.
  exact (cf_or_in_range a b r Ha Hb E).
Qed.

Lemma keeps_update_cf p i v c :
  in_range c -> keeps (update_cf p i v c) (fun _ => True).
Proof.
  intros Hc. unfold update_cf.
  eapply keeps_bind; [apply keeps_get_cf|]. intros existing He.
  eapply keeps_bind; [apply keeps_lift_cf_or; assumption|]. intros updated Hu.
  eapply keeps_bind; [apply keeps_get_vals|]. intros vals _.
  apply keeps_mutate. intros d Hd. now apply vals_ok_set.
Qed.

Lemma keeps_eval_condition c values fo :
  keeping_hook fo -> keeps (eval_condition c values fo) (fun _ => True).
Proof.
  intros Hh. unfold eval_condition.
  eapply keeps_bind with (Q := fun _ => True).
  - destruct fo as [h|]; [|now apply keeps_ret].
    eapply keeps_bind; [apply (Hh h eq_refl)|]. intros _ _. now apply keeps_ret.
  - intros _ _. eapply keeps_bind; [apply keeps_items|].
    intros d _. now apply keeps_ret.
Qed.

Lemma keeping_hook_none : keeping_hook None.
Proof. intros h H; discriminate H. Qed.

Lemma keeps_reject_loop ps : keeps (reject_loop ps) (fun _ => True).
Proof.
  induction ps as [|p ps IH]; cbn [reject_loop]; [now apply keeps_ret|].
  eapply keeps_bind; [apply keeps_get_vals|]. intros vals _.
  eapply keeps_bind; [apply keeps_eval_condition, keeping_hook_none|].
  intros c _. destruct (cf_false c); [now apply keeps_ret|exact IH].
Qed.

Lemma keeps_combine_loop fo ps :
  keeping_hook fo ->
  forall total, keeps (combine_loop fo total ps) (fun _ => True).
Proof.
  intros Hh. induction ps as [|p ps IH]; intros total; cbn [combine_loop];
    [now apply keeps_ret|].
  eapply keeps_bind; [apply keeps_get_vals|]. intros vals _.
  eapply keeps_bind; [apply keeps_eval_condition, Hh|].
  intros c _. destruct (negb _); [now apply keeps_ret|apply IH].
Qed.

Lemma keeps_applicable r fo :
  keeping_hook fo -> keeps (applicable r fo) (fun _ => True).
Proof.
  intros Hh. unfold applicable, premises.
  eapply keeps_bind; [apply keeps_reader|]. intros ps _.
  eapply keeps_bind; [apply keeps_reject_loop|]. intros rejected _.
  destruct rejected; [now apply keeps_ret|].
  eapply keeps_bind; [apply keeps_reader|]. intros ps' _.
  now apply keeps_combine_loop.
Qed.

Lemma cf_true_in_range c : cf_true c = Datatypes.true -> in_range c.
Proof.
  unfold cf_true. intros H. apply andb_true_iff in H as [H _].
  now apply is_cf_true.
Qed.

(** Rule application keeps the invariant: [apply] accumulates a
    certainty only after [cf_true] accepted it, and [cf_true] starts with
    [is_cf]. *)
Theorem apply_keeps_cf_invariant r fo tr :
  keeping_hook fo -> keeping_tracker tr ->
  keeps (apply r fo tr) (fun _ => True).
Proof.
  intros Hh Ht. unfold apply.
  eapply keeps_bind with (Q := fun _ => True).
  - destruct tr as [t|]; [apply (Ht t eq_refl)|now apply keeps_ret].
  - intros _ _. eapply keeps_bind; [now apply keeps_applicable|].
    intros a _. destruct (cf_true (cf r * a)) eqn:E; cbn [negb];
      [|now apply keeps_ret].
    unfold conclusions.
    eapply keeps_bind; [apply keeps_reader|]. intros cs _.
    eapply keeps_bind; [|intros _ _; now apply keeps_ret].
    apply keeps_for_each. intros cn.
    apply keeps_update_cf. now apply cf_true_in_range.
Qed.


Lemma keeps_modify_frame (f : Shell -> Shell) :
  (forall s, known_values (f s) = known_values s) ->
  keeps (modify f) (fun _ => True).
Proof.
  intros Hf s Hs. split; [|trivial].
  unfold cf_invariant, stored, state_after, modify in *. cbn. now rewrite Hf.
Qed.







Section Checked.
Variable float : string -> outcome Q.
(** Certainty tokens are converted to certainty factors only. *)
Hypothesis float_checked : forall tok q, float tok = Ok q -> in_range q.








Lemma keeps_instantiate n : keeps (instantiate n) (fun _ => True).
Proof.
  unfold instantiate.
  eapply keeps_bind; [apply keeps_reader|]. intros ctx _.
  destruct (ctx_instantiate ctx) as [inst ctx'].
  eapply keeps_bind; [apply keeps_modify_frame; reflexivity|]. intros _ _.
  eapply keeps_bind; [apply keeps_modify_frame; reflexivity|]. intros _ _.
  eapply keeps_bind; [apply keeps_modify_frame; reflexivity|]. intros _ _.
  now apply keeps_ret.
Qed.




End Checked.

(** ** Sessions *)

(** C10.  [execute] is a function of the definitions (rules, contexts
    with their counters, parameters), of its arguments and of the
    responses of the port: two engines that agree on these return equal
    mappings (or raise the same exception) and end with equal fact
    stores, at every bound on the depth of nesting.  Nothing else of an
    engine matters: not what an earlier session left in [known],
    [asked], the fact store, the instances or the markers, and not what
    was written before. *)
Theorem execute_deterministic :
  forall (float : string -> outcome Q) (fuel : nat) (names : list string)
         (s t : Shell),
    rules s = rules t ->
    contexts s = contexts t ->
    params s = params t ->
    port_in s = port_in t ->
    outcome_of (execute float fuel names) s
      = outcome_of (execute float fuel names) t /\
    known_values (state_after (execute float fuel names) s)
      = known_values (state_after (execute float fuel names) t).
Proof.
  intros float fuel names s t Hr Hc Hp Hi.
  set (rest := results <- execute_loop float fuel names [] ;;
               values <- gets known_values ;;
               ret (resolve results values)).
  assert (Hb : log_blind rest).
  { unfold rest. apply log_blind_bind; [apply log_blind_execute_loop|].
    intros results.
    apply log_blind_bind; [unfold gets; blind|]. intros values. blind. }
  assert (Es : forall u, execute float fuel names u =
                         rest (state_after (write Beginning ;; clear) u))
    by reflexivity.
  unfold outcome_of, state_after in *. rewrite !Es.
  destruct (Hb (snd ((write Beginning ;; clear) s))
               (snd ((write Beginning ;; clear) t))) as [O S].
  { unfold same_engine. cbn. now rewrite Hr, Hc, Hp, Hi. }
  split; [exact O|].
  unfold same_engine in S. apply (f_equal known_values) in S. exact S.
Qed.

Lemma execute_deterministic_witness :
  let s := Scenario.shell ["15"] in
  let t := with_port_log [Tell Help] (with_known [("x", Some ("c", 0%Z))] s) in
  outcome_of (execute Decimal.float 1 ["c"]) s
    = outcome_of (execute Decimal.float 1 ["c"]) t /\
  known_values (state_after (execute Decimal.float 1 ["c"]) s)
    = known_values (state_after (execute Decimal.float 1 ["c"]) t).
Proof.
  cbv zeta.
  apply (execute_deterministic Decimal.float 1 ["c"]); reflexivity.
Defined.

(** C2 fails on the code.  In the first scenario with the answers [5]
    for [x] and [hi 5, lo 0] for [y], the rule does not fire, [y] is
    asked, and the certainty 5 given for [hi] is accumulated as it is:
    the fact store [execute] returns holds a certainty above 1. *)
Theorem reply_certainty_not_checked :
  let s := Scenario.shell ["5"; "hi 5, lo 0"] in
  outcome_of (execute Decimal.float 1 ["c"]) s
    = Ok [(Some ("c", 0%Z), [("y", [(VStr "hi", 5); (VStr "lo", 0)])])] /\
  ~ cf_invariant (state_after (execute Decimal.float 1 ["c"]) s).
Proof.
  cbv zeta. split; [reflexivity|].
  intros H. specialize (H "y" (Some ("c", 0%Z)) (VStr "hi") 5 eq_refl).
  destruct H as [_ H]. apply H. reflexivity.
Qed.

(** * Further properties

    ** Certainty algebra *)

Lemma cf_or_sym a b :
  match cf_or a b, cf_or b a with
  | Ok x, Ok y => x == y
  | Raise e, Raise e' => e = e'
  | _, _ => False
  end.
Proof.
  unfold cf_or.
  rewrite (andb_comm (Qltb 0 b)), (andb_comm (Qltb b 0)).
  destruct (Qltb 0 a && Qltb 0 b); [ring|].
  destruct (Qltb a 0 && Qltb b 0); [ring|].
  assert (E : 1 - Qmin (Qabs a) (Qabs b) == 1 - Qmin (Qabs b) (Qabs a))
    by (rewrite Q.min_comm; reflexivity).
  destruct (Qeq_bool (1 - Qmin (Qabs a) (Qabs b)) 0) eqn:E1,
           (Qeq_bool (1 - Qmin (Qabs b) (Qabs a)) 0) eqn:E2.
  - reflexivity.
  - apply Qeq_bool_iff in E1. apply Qeq_bool_neq in E2. apply E2.
    now rewrite <- E.
  - apply Qeq_bool_iff in E2. apply Qeq_bool_neq in E1. apply E1.
    now rewrite E.
  - rewrite E. apply Qeq_bool_neq in E2. field. exact E2.
Qed.

(** X1.  [cf_or] is commutative for all operands: [cf_or(a, b)] and
    [cf_or(b, a)] both raise, or both return and the results are equal
    numbers. *)
Theorem cf_or_commutative :
  forall a b : Q,
    match cf_or a b, cf_or b a with
    | Ok x, Ok y => x == y
    | Raise e, Raise e' => e = e'
    | _, _ => False
    end.
Proof. exact cf_or_sym. Qed.

(** X2.  On certainty factors, [cf_or] raises exactly at the two
    singular pairs [(1, -1)] and [(-1, 1)], and what it raises is
    [ZeroDivisionError]. *)
Theorem cf_or_raises_at_singular_pairs :
  forall (a b : Q) (e : exn),
    -1 <= a <= 1 -> -1 <= b <= 1 ->
    (cf_or a b = Raise e <->
     e = ZeroDivisionError /\ ((a == 1 /\ b == -1) \/ (a == -1 /\ b == 1))).
Proof. exact cf_or_raise_iff. Qed.

Lemma cf_or_raises_at_singular_pairs_witness :
  -1 <= 1 <= 1 /\ -1 <= -1 <= 1 /\ cf_or 1 (-1) = Raise ZeroDivisionError.
Proof.
  split; [split; discriminate|]. split; [split; discriminate|].
  apply (cf_or_raises_at_singular_pairs 1 (-1) ZeroDivisionError).
  - split; discriminate.
  - split; discriminate.
  - split; [reflexivity|]. left. split; reflexivity.
Defined.

(** X3.  Unknown is neutral for [cf_or]: [cf_or(unknown, x)] is [x]
    itself and [cf_or(x, unknown)] is a number equal to [x]; neither
    raises, for any [x]. *)
Theorem cf_or_unknown :
  forall x : Q,
    cf_or CF.unknown x = Ok x /\
    exists r, cf_or x CF.unknown = Ok r /\ r == x.
Proof.
  intros x. split; [apply cf_or_unknown_l|].
  pose proof (cf_or_sym x CF.unknown) as H.
  rewrite cf_or_unknown_l in H.
  destruct (cf_or x CF.unknown) as [r|e]; [|destruct H].
  exists r. now split.
Qed.

(** X4.  [cf_true] holds exactly on [(0.2, 1]] and [cf_false] exactly
    on [[-1, -0.8)]; no number is both. *)
Theorem cf_true_cf_false_thresholds :
  forall x : Q,
    (cf_true x = Datatypes.true <-> (2 # 10) < x <= 1) /\
    (cf_false x = Datatypes.true <-> -1 <= x < -(8 # 10)) /\
    ~ (cf_true x = Datatypes.true /\ cf_false x = Datatypes.true).
Proof.
  intros x.
  assert (T : cf_true x = Datatypes.true <-> (2 # 10) < x <= 1).
  { unfold cf_true, CF.cutoff. rewrite andb_true_iff, is_cf_true, Qltb_true. lra. }
  assert (F : cf_false x = Datatypes.true <-> -1 <= x < -(8 # 10)).
  { unfold cf_false, CF.cutoff. rewrite andb_true_iff, is_cf_true, Qltb_true. lra. }
  split; [exact T|]. split; [exact F|].
  rewrite T, F. lra.
Qed.

(** ** Fact store: reading and accumulating *)

Section DictOther.
Variables K V : Type.
Variable eqb : K -> K -> bool.

Lemma get_set_other (k k' : K) (v : V) (d : Dict.t K V) :
  eqb k' k = Datatypes.false ->
  (forall x, eqb x k' = Datatypes.true -> eqb x k = Datatypes.false) ->
  Dict.get eqb k (Dict.set eqb k' v d) = Dict.get eqb k d.
Proof.
  intros N H. induction d as [|[k'' v''] d IH]; cbn.
  - now rewrite N.
  - destruct (eqb k'' k') eqn:E; cbn.
    + now rewrite (H k'' E).
    + now rewrite IH.
Qed.

Lemma get_setdefault_other (k k' : K) (v : V) (d : Dict.t K V) :
  eqb k' k = Datatypes.false ->
  (forall x, eqb x k' = Datatypes.true -> eqb x k = Datatypes.false) ->
  Dict.get eqb k (snd (Dict.setdefault eqb k' v d)) = Dict.get eqb k d.
Proof.
  intros N H. unfold Dict.setdefault.
  destruct (Dict.get eqb k' d); cbn [snd]; [reflexivity|].
  now apply get_set_other.
Qed.
End DictOther.

Lemma key_eqb_eq a b : key_eqb a b = Datatypes.true <-> a = b.
Proof.
  destruct a as [p i], b as [q j]. unfold key_eqb, inst_ref_eqb, inst_eqb. cbn.
  rewrite andb_true_iff, String.eqb_eq. split.
  - intros [-> H]. f_equal.
    destruct i as [[c n]|], j as [[c' n']|]; try discriminate; [|reflexivity].
    cbn in H. apply andb_true_iff in H as [H1 H2].
    apply String.eqb_eq in H1. apply Z.eqb_eq in H2. now subst.
  - intros E; injection E as -> ->. split; [reflexivity|].
    destruct j as [[c n]|]; [|reflexivity]. cbn.
    now rewrite String.eqb_refl, Z.eqb_refl.
Qed.

Lemma key_eqb_other k k' x :
  key_eqb k' k = Datatypes.false -> key_eqb x k' = Datatypes.true -> key_eqb x k = Datatypes.false.
Proof.
  intros N E. apply key_eqb_eq in E. subst x. exact N.
Qed.

Lemma value_eqb_other v v' x :
  value_eqb v v' = Datatypes.false -> value_eqb x v = Datatypes.true -> value_eqb x v' = Datatypes.false.
Proof.
  intros N E. destruct (value_eqb x v') eqn:E'; [|reflexivity].
  rewrite <- N. clear N.
  destruct x, v, v'; cbn in *; try discriminate;
    repeat match goal with
           | H : String.eqb _ _ = Datatypes.true |- _ => apply String.eqb_eq in H; subst
           | H : Z.eqb _ _ = Datatypes.true |- _ => apply Z.eqb_eq in H; subst
           | H : Bool.eqb _ _ = Datatypes.true |- _ => apply Bool.eqb_prop in H; subst
           end;
    rewrite ?String.eqb_refl, ?Z.eqb_refl, ?Bool.eqb_reflx; try reflexivity;
    repeat match goal with b : bool |- _ => destruct b end;
    try reflexivity; try discriminate.
Qed.

Lemma items_of_set_other k k' x st :
  key_eqb k' k = Datatypes.false ->
  items_of k (Dict.set key_eqb k' x st) = items_of k st.
Proof.
  intros N. unfold items_of.
  rewrite get_set_other; [reflexivity|exact N|].
  intros y. now apply key_eqb_other.
Qed.

(** X5.  [get_cf] never raises and returns the stored certainty, or
    unknown when there is none; reading is not free of effect: the
    certainty it returned is stored afterwards, so an unknown value gets
    the entry 0.0. *)
Theorem get_cf_reads_and_stores :
  forall (p : string) (i : inst_ref) (v : value) (s : Shell),
    outcome_of (get_cf p i v) s = Ok (existing p i v s) /\
    stored p i v (state_after (get_cf p i v) s) = Some (existing p i v s).
Proof.
  intros p i v s.
  unfold existing, stored, get_cf, get_vals, mutate, items, bind, ret, modify, gets,
    state_after, outcome_of. cbn.
  rewrite items_of_touch, !items_of_set.
  rewrite get_setdefault by apply value_eqb_refl.
  rewrite !fst_setdefault.
  rewrite get_setdefault by apply value_eqb_refl.
  rewrite fst_setdefault. split; reflexivity.
Qed.

(** X6.  [update_cf] for [(p, i, v)] leaves the stored certainty of
    every other value, of the same or of another [(param, inst)], as it
    was, also when it raises. *)
Theorem update_cf_leaves_other_values :
  forall (p : string) (i : inst_ref) (v : value) (c : Q)
         (p' : string) (i' : inst_ref) (v' : value) (s : Shell),
    key_eqb (p, i) (p', i') = Datatypes.false \/ value_eqb v v' = Datatypes.false ->
    stored p' i' v' (state_after (update_cf p i v c) s) = stored p' i' v' s.
Proof.
  intros p i v c p' i' v' s H. unfold stored. rewrite update_cf_state. cbv zeta.
  destruct (key_eqb (p, i) (p', i')) eqn:K.
  - destruct H as [H|H]; [discriminate|]. apply key_eqb_eq in K. injection K as <- <-.
    assert (V : forall x, value_eqb x v = Datatypes.true -> value_eqb x v' = Datatypes.false)
      by (intros x; now apply value_eqb_other).
    destruct (cf_or _ c); rewrite !items_of_set;
      rewrite ?get_set_other by assumption;
      rewrite get_setdefault_other by assumption;
      now rewrite items_of_touch.
  - destruct (cf_or _ c); rewrite !items_of_set_other by exact K;
      now rewrite items_of_touch.
Qed.

Lemma update_cf_leaves_other_values_witness :
  let s := state_after (update_cf "y" (Some ("c", 0%Z)) (VStr "lo") (3 # 10))
             (new_shell []) in
  value_eqb (VStr "hi") (VStr "lo") = Datatypes.false /\
  stored "y" (Some ("c", 0%Z)) (VStr "lo")
    (state_after (update_cf "y" (Some ("c", 0%Z)) (VStr "hi") (5 # 10)) s)
  = stored "y" (Some ("c", 0%Z)) (VStr "lo") s.
Proof.
  cbv zeta. split; [reflexivity|].
  apply update_cf_leaves_other_values. right. reflexivity.
Defined.

(** X7.  [update_cf] combines the existing certainty (unknown when
    there is none) with the new one by [cf_or]: when [cf_or] returns,
    the result replaces the stored certainty; when [cf_or] raises,
    [update_cf] raises the same exception and the existing certainty
    stays stored. *)
Theorem update_cf_accumulates :
  forall (p : string) (i : inst_ref) (v : value) (c : Q) (s : Shell),
    match cf_or (existing p i v s) c with
    | Ok u =>
        outcome_of (update_cf p i v c) s = Ok tt /\
        stored p i v (state_after (update_cf p i v c) s) = Some u
    | Raise e =>
        outcome_of (update_cf p i v c) s = Raise e /\
        stored p i v (state_after (update_cf p i v c) s)
          = Some (existing p i v s)
    end.
Proof.
  intros p i v c s. pose proof (update_cf_run p i v c s) as R.
  fold (existing p i v s) in R.
  pose proof (update_cf_state p i v c s) as S. cbv zeta in S.
  destruct (cf_or (existing p i v s) c) as [u|e]; [exact R|].
  split; [exact R|]. unfold stored. rewrite S, items_of_set.
  rewrite get_setdefault by apply value_eqb_refl.
  rewrite fst_setdefault, items_of_touch. reflexivity.
Qed.

(** ** Rule engine: binding, applicability, firing *)

Lemma cf_true_iff x : cf_true x = Datatypes.true <-> (2 # 10) < x <= 1.
Proof.
  unfold cf_true, CF.cutoff. rewrite andb_true_iff, is_cf_true, Qltb_true. lra.
Qed.

Lemma cf_false_iff x : cf_false x = Datatypes.true <-> -1 <= x < -(8 # 10).
Proof.
  unfold cf_false, CF.cutoff. rewrite andb_true_iff, is_cf_true, Qltb_true. lra.
Qed.

Lemma bind_conds_raises conds insts e :
  bind_conds conds insts = Raise e -> e = KeyError.
Proof.
  induction conds as [|c conds IH]; cbn; [discriminate|].
  unfold _bind_cond, Dict.item.
  destruct (Dict.get String.eqb (rc_ctx c) insts).
  - destruct (bind_conds conds insts); [discriminate|].
    intros E; injection E as <-. now apply IH.
  - intros E; injection E as <-. reflexivity.
Qed.

Lemma bind_conds_unbound conds insts :
  (exists c, In c conds /\ Dict.get String.eqb (rc_ctx c) insts = None) ->
  bind_conds conds insts = Raise KeyError.
Proof.
  induction conds as [|c conds IH]; intros (x & Hin & Hx); [destruct Hin|].
  cbn. unfold _bind_cond, Dict.item.
  destruct (Dict.get String.eqb (rc_ctx c) insts) eqn:E.
  - destruct Hin as [->|Hin]; [congruence|].
    rewrite IH; [reflexivity|]. now exists x.
  - reflexivity.
Qed.

(** X8.  When a premise of a rule names a context that has no
    instance, [applicable] raises [KeyError] before it touches the fact
    store or runs the hook, and so does [apply]: the engine is as
    before. *)
Theorem applicable_unbound_context :
  forall (r : Rule) (fo : option hook) (s : Shell),
    (exists c, In c (raw_premises r) /\
               Dict.get String.eqb (rc_ctx c) (instances s) = None) ->
    applicable r fo s = (Raise KeyError, s) /\
    apply r fo None s = (Raise KeyError, s).
Proof.
  intros r fo s H. apply bind_conds_unbound in H.
  unfold apply, applicable, premises, bind, ret. cbn. rewrite H. now split.
Qed.

Lemma applicable_unbound_context_witness :
  In (RawCond "x" "c" ge (VInt 10)) (raw_premises Scenario.rule1) /\
  Dict.get String.eqb "c" (instances (Scenario.shell [])) = None /\
  applicable Scenario.rule1 (Some Scenario.raising_hook) (Scenario.shell [])
    = (Raise KeyError, Scenario.shell []).
Proof.
  split; [left; reflexivity|]. split; [reflexivity|].
  apply (applicable_unbound_context Scenario.rule1
           (Some Scenario.raising_hook) (Scenario.shell [])).
  exists (RawCond "x" "c" ge (VInt 10)). split; [left; reflexivity|reflexivity].
Defined.

Lemma cf_and_passes total c :
  cf_true total = Datatypes.true ->
  cf_true (cf_and total c) = Qltb CF.cutoff c.
Proof.
  intros Ht. apply cf_true_iff in Ht. unfold cf_and.
  destruct (Qltb CF.cutoff c) eqn:E.
  - apply Qltb_true in E. unfold CF.cutoff in E. apply cf_true_iff.
    destruct (Q.min_spec total c) as [[L Em]|[L Em]]; rewrite Em; lra.
  - apply Qltb_false in E. unfold CF.cutoff in E.
    destruct (cf_true (Qmin total c)) eqn:E'; [|reflexivity].
    apply cf_true_iff in E'.
    destruct (Q.min_spec total c) as [[L Em]|[L Em]]; rewrite Em in E'; lra.
Qed.

Lemma reject_loop_outcome ps :
  forall s,
    exists b,
      outcome_of (reject_loop ps) s = Ok b /\
      (b = Datatypes.true -> exists p, In p ps /\ cf_false (certainty p s) = Datatypes.true).
Proof.
  induction ps as [|q ps IH]; intros s.
  - exists Datatypes.false. split; [reflexivity|discriminate].
  - unfold outcome_of. rewrite reject_loop_cons. cbv zeta.
    destruct (cf_false (certainty q s)) eqn:E.
    + exists Datatypes.true. split; [reflexivity|]. intros _. exists q. split; [now left|exact E].
    + destruct (IH (state_after (get_vals (c_param q) (Some (c_inst q))) s))
        as (b & O & W).
      exists b. split; [exact O|]. intros Hb. destruct (W Hb) as (p & Hin & Hp).
      exists p. split; [now right|]. now rewrite certainty_get_vals in Hp.
Qed.

Lemma all_pass_same ps s t :
  (forall p, certainty p t = certainty p s) -> all_pass ps t = all_pass ps s.
Proof.
  intros H. unfold all_pass. induction ps as [|p ps IH]; cbn; [reflexivity|].
  now rewrite H, IH.
Qed.

Lemma weakest_same ps s t :
  (forall p, certainty p t = certainty p s) ->
  forall total, weakest total ps t = weakest total ps s.
Proof.
  intros H. unfold weakest. induction ps as [|p ps IH]; intros total; cbn;
    [reflexivity|].
  now rewrite H, IH.
Qed.

Lemma combine_loop_no_hook ps :
  forall total s,
    cf_true total = Datatypes.true ->
    outcome_of (combine_loop None total ps) s =
    Ok (if all_pass ps s then weakest total ps s else CF.false).
Proof.
  induction ps as [|q ps IH]; intros total s Ht; [reflexivity|].
  set (s1 := state_after (get_vals (c_param q) (Some (c_inst q))) s).
  assert (C : forall p, certainty p s1 = certainty p s)
    by (intros p; apply certainty_get_vals).
  assert (E : combine_loop None total (q :: ps) s =
              if negb (cf_true (cf_and total (certainty q s)))
              then (Ok CF.false, s1)
              else combine_loop None (cf_and total (certainty q s)) ps s1).
  { cbn [combine_loop]. rewrite <- (C q).
    unfold certainty, eval_condition, get_vals, items, state_after, bind, modify,
      gets, ret, s1. cbn. now destruct (negb _). }
  unfold outcome_of. rewrite E. rewrite (cf_and_passes total _ Ht).
  cbn [all_pass forallb]. fold (all_pass ps s).
  destruct (Qltb CF.cutoff (certainty q s)) eqn:P; cbn [negb andb fst];
    [|reflexivity].
  fold (outcome_of (combine_loop None (cf_and total (certainty q s)) ps) s1).
  rewrite IH.
  - rewrite (all_pass_same ps s s1 C), (weakest_same ps s s1 C). reflexivity.
  - now rewrite (cf_and_passes total _ Ht).
Qed.

Lemma reject_loop_same_facts ps s : same_facts s (state_after (reject_loop ps) s).
Proof.
  apply (reject_loop_within same_facts same_facts_refl same_facts_trans
           same_facts_get_vals).
Qed.

Lemma same_facts_certainty s t p : same_facts s t -> certainty p t = certainty p s.
Proof. intros [_ H]. unfold certainty. now rewrite H. Qed.

Lemma same_facts_instances s t : same_facts s t -> instances t = instances s.
Proof.
  intros [H _]. apply (f_equal instances) in H. exact H.
Qed.

(** X9.  Without a hook, [applicable] returns the minimum of 1 and the
    certainties of the premises when every premise has a certainty above
    the cutoff 0.2, and [CF.false] otherwise; it does not raise once the
    premises bind. *)
Theorem applicable_without_hook :
  forall (r : Rule) (s : Shell) (ps : list condition),
    bind_conds (raw_premises r) (instances s) = Ok ps ->
    outcome_of (applicable r None) s =
    Ok (if all_pass ps s then weakest CF.true ps s else CF.false).
Proof.
  intros r s ps Hb.
  destruct (reject_loop_outcome ps s) as (b & O & W).
  pose proof (reject_loop_same_facts ps s) as F.
  unfold outcome_of, applicable, premises, bind in *. rewrite Hb.
  unfold state_after in F.
  destruct (reject_loop ps s) as [[b'|e] s1]; cbn in O; [|discriminate].
  injection O as ->. cbn [snd] in F.
  destruct b.
  - destruct (W eq_refl) as (p & Hin & Hp). cbn.
    replace (all_pass ps s) with Datatypes.false; [reflexivity|].
    symmetry. unfold all_pass. apply not_true_is_false. intros A.
    rewrite forallb_forall in A. specialize (A p Hin).
    apply Qltb_true in A. apply cf_false_iff in Hp. unfold CF.cutoff in A. lra.
  - rewrite (same_facts_instances s s1 F), Hb.
    fold (outcome_of (combine_loop None CF.true ps) s1).
    rewrite combine_loop_no_hook by reflexivity.
    rewrite (all_pass_same ps s s1), (weakest_same ps s s1);
      auto using same_facts_certainty.
Qed.

Lemma applicable_without_hook_witness :
  let s := state_after
             (instantiate "c" ;;
              update_cf "x" (Some ("c", 0%Z)) (VInt 15) (7 # 10))
             (Scenario.shell []) in
  let ps := [Cond "x" ("c", 0%Z) ge (VInt 10)] in
  bind_conds (raw_premises Scenario.rule1) (instances s) = Ok ps /\
  all_pass ps s = Datatypes.true /\
  outcome_of (applicable Scenario.rule1 None) s
    = Ok (if all_pass ps s then weakest CF.true ps s else CF.false).
Proof.
  cbv zeta. split; [reflexivity|]. split; [reflexivity|].
  apply (applicable_without_hook Scenario.rule1 _
           [Cond "x" ("c", 0%Z) ge (VInt 10)]).
  reflexivity.
Defined.

Lemma combine_loop_result fo ps :
  forall total s a,
    cf_true total = Datatypes.true ->
    outcome_of (combine_loop fo total ps) s = Ok a ->
    a = CF.false \/ cf_true a = Datatypes.true.
Proof.
  induction ps as [|q ps IH]; intros total s a Ht; cbn [combine_loop].
  - intros E. injection E as <-. now right.
  - unfold outcome_of, bind.
    destruct (get_vals (c_param q) (Some (c_inst q)) s) as [[vals|e] s1];
      [|discriminate].
    destruct (eval_condition q vals fo s1) as [[c|e] s2]; [|discriminate].
    destruct (cf_true (cf_and total c)) eqn:E; cbn [negb].
    + apply (IH _ s2 a E).
    + intros H. injection H as <-. now left.
Qed.

Lemma applicable_verdict r fo s a :
  outcome_of (applicable r fo) s = Ok a ->
  a = CF.false \/ cf_true a = Datatypes.true.
Proof.
  unfold outcome_of, applicable, premises, bind.
  destruct (bind_conds (raw_premises r) (instances s)) as [ps|e]; [|discriminate].
  destruct (reject_loop ps s) as [[[|]|e] s1]; try discriminate.
  - intros E. injection E as <-. now left.
  - destruct (bind_conds (raw_premises r) (instances s1)) as [ps'|e];
      [|discriminate].
    apply (combine_loop_result fo ps' CF.true s1 a eq_refl).
Qed.

(** X10.  Whatever the hook does, what [applicable] returns is either
    [CF.false] or a certainty that is [cf_true]: nothing in between. *)
Theorem applicable_result :
  forall (r : Rule) (fo : option hook) (s : Shell) (a : Q),
    outcome_of (applicable r fo) s = Ok a ->
    a = CF.false \/ cf_true a = Datatypes.true.
Proof. exact applicable_verdict. Qed.

Lemma applicable_result_witness :
  let s := state_after (instantiate "c") (Scenario.shell []) in
  outcome_of (applicable Scenario.rule1 None) s = Ok CF.false /\
  (CF.false = CF.false \/ cf_true CF.false = Datatypes.true).
Proof.
  cbv zeta. split; [reflexivity|].
  apply (applicable_result Scenario.rule1 None
           (state_after (instantiate "c") (Scenario.shell []))).
  reflexivity.
Defined.

(** X11.  A rule fires only in two ways: its premises pass and its
    attenuation is above 0.2, or its premises fail ([applicable]
    returned [CF.false]) and its attenuation is in [[-1, -0.2)], the
    product of the two being then a positive certainty. *)
Theorem apply_fires_only_if :
  forall (r : Rule) (fo : option hook) (tr : option tracker) (s : Shell),
    outcome_of (apply r fo tr) s = Ok Datatypes.true ->
    exists a,
      outcome_of (applicability r fo tr) s = Ok a /\
      ((cf_true a = Datatypes.true /\ (2 # 10) < cf r) \/
       (a = CF.false /\ -1 <= cf r < -(2 # 10))).
Proof.
  intros r fo tr s. unfold outcome_of, apply, applicability, bind.
  destruct (match tr with Some t => t r | None => ret tt end s) as [[[]|e] s0];
    [|discriminate].
  pose proof (applicable_verdict r fo s0) as R. unfold outcome_of in R.
  destruct (applicable r fo s0) as [[a|e] s1]; [|discriminate].
  destruct (cf_true (cf r * a)) eqn:E; cbn [negb]; [|discriminate].
  intros _. exists a. split; [reflexivity|].
  apply cf_true_iff in E.
  destruct (R a eq_refl) as [->|T].
  - right. split; [reflexivity|]. unfold CF.false in E. lra.
  - left. split; [exact T|]. apply cf_true_iff in T. nra.
Qed.

Lemma apply_fires_only_if_witness :
  let s := state_after (instantiate "c") (Scenario.shell []) in
  outcome_of (apply negative_rule None None) s = Ok Datatypes.true /\
  exists a,
    outcome_of (applicability negative_rule None None) s = Ok a /\
    ((cf_true a = Datatypes.true /\ (2 # 10) < cf negative_rule) \/
     (a = CF.false /\ -1 <= cf negative_rule < -(2 # 10))).
Proof.
  cbv zeta. split; [reflexivity|].
  apply (apply_fires_only_if negative_rule None None). reflexivity.
Defined.

Lemma sort_premises_cons p ps s :
  sort_premises (p :: ps) s =
  let s1 := state_after (get_vals (c_param p) (Some (c_inst p))) s in
  match sort_premises ps s1 with
  | (Ok rest, s2) =>
      (Ok (if cf_true (certainty p s) then (p :: fst rest, snd rest)
           else (fst rest, p :: snd rest)), s2)
  | (Raise e, s2) => (Raise e, s2)
  end.
Proof.
  cbn [sort_premises]. rewrite <- (certainty_get_vals p (c_param p) (Some (c_inst p)) s).
  unfold certainty, eval_condition, get_vals, items, state_after, bind, modify,
    gets, ret. cbn.
  now destruct (sort_premises ps _) as [[rest|e] s2].
Qed.

(** X12.  The loop of [print_why] sorts the premises without loss and
    in order: [known] holds the premises whose certainty against the
    facts is [cf_true], [unknown] all the others; it does not raise. *)
Theorem sort_premises_partitions :
  forall (ps : list condition) (s : Shell),
    outcome_of (sort_premises ps) s =
    Ok (filter (fun p => cf_true (certainty p s)) ps,
        filter (fun p => negb (cf_true (certainty p s))) ps).
Proof.
  induction ps as [|p ps IH]; intros s; [reflexivity|].
  unfold outcome_of. rewrite sort_premises_cons. cbv zeta.
  set (s1 := state_after (get_vals (c_param p) (Some (c_inst p))) s).
  specialize (IH s1). unfold outcome_of in IH.
  destruct (sort_premises ps s1) as [[rest|e] s2]; cbn in IH; [|discriminate].
  injection IH as ->. cbn [fst snd filter].
  assert (C : forall q, certainty q s1 = certainty q s)
    by (intros q; apply certainty_get_vals).
  rewrite (filter_ext _ (fun q => cf_true (certainty q s)))
    by (intros q; now rewrite C).
  rewrite (filter_ext (fun q => negb (cf_true (certainty q s1)))
             (fun q => negb (cf_true (certainty q s))))
    by (intros q; now rewrite C).
  now destruct (cf_true (certainty p s)).
Qed.

(** ** Replies *)

Section ParseFacts.
Variable float : string -> outcome Q.

(** X13.  For an enumerated parameter, a reply without a comma is
    accepted exactly when it is a member of the domain, and then it is
    that one value with certainty 1.0; any other reply is rejected with
    [ValueError]. *)
Theorem parse_reply_enumerated :
  forall (p : Param) (e : list string) (reply : string),
    p_cls p = None ->
    p_enum p = Some e ->
    Str.contains "," reply = false ->
    (In reply e -> parse_reply float p reply = Ok [(VStr reply, CF.true)]) /\
    (~ In reply e -> parse_reply float p reply = Raise ValueError).
Proof.
  intros p e reply Hc He Hn. unfold parse_reply, from_string.
  rewrite Hn, Hc, He. split; intros H.
  - assert (E : existsb (String.eqb reply) e = true).
    { apply existsb_exists. exists reply. split; [exact H|apply String.eqb_refl]. }
    rewrite E. destruct e; [destruct H|reflexivity].
  - assert (E : existsb (String.eqb reply) e = false).
    { apply not_true_is_false. intros E. apply existsb_exists in E.
      destruct E as (x & Hin & Hx). apply String.eqb_eq in Hx. now subst. }
    rewrite E, andb_false_r. reflexivity.
Qed.


End ParseFacts.

Lemma parse_reply_enumerated_witness :
  p_cls Scenario.y = None /\
  p_enum Scenario.y = Some ["lo"; "hi"] /\
  Str.contains "," "hi" = false /\
  parse_reply Decimal.float Scenario.y "hi" = Ok [(VStr "hi", CF.true)].
Proof.
  split; [reflexivity|]. split; [reflexivity|]. split; [reflexivity|].
  apply (parse_reply_enumerated Decimal.float Scenario.y ["lo"; "hi"] "hi");
    try reflexivity.
  right. left. reflexivity.
Defined.


(** ** Knowledge base and resolution *)

Lemma string_eqb_other k k' x :
  String.eqb k' k = false -> String.eqb x k' = true -> String.eqb x k = false.
Proof. intros N E. apply String.eqb_eq in E. now subst. Qed.

Lemma get_set_string {V} (k k' : string) (v : V) (d : Dict.t string V) :
  Dict.get String.eqb k (Dict.set String.eqb k' v d) =
  if String.eqb k' k then Some v else Dict.get String.eqb k d.
Proof.
  destruct (String.eqb k' k) eqn:E.
  - apply String.eqb_eq in E. subst. apply get_set_same, String.eqb_refl.
  - apply get_set_other; [exact E|]. intros x. now apply string_eqb_other.
Qed.

Lemma get_setdefault_string {V} (k k' : string) (v : V) (d : Dict.t string V) :
  Dict.get String.eqb k (snd (Dict.setdefault String.eqb k' v d)) =
  match Dict.get String.eqb k d with
  | Some x => Some x
  | None => if String.eqb k' k then Some v else None
  end.
Proof.
  unfold Dict.setdefault.
  destruct (Dict.get String.eqb k' d) eqn:E; cbn [snd].
  - destruct (Dict.get String.eqb k d) eqn:E'; [reflexivity|].
    destruct (String.eqb k' k) eqn:K; [|reflexivity].
    apply String.eqb_eq in K. subst. congruence.
  - rewrite get_set_string. destruct (String.eqb k' k) eqn:K.
    + apply String.eqb_eq in K. subst. now rewrite E.
    + now destruct (Dict.get String.eqb k d).
Qed.

(** One step of [define_rule]: the rule is appended to the list of the
    parameter of a conclusion. *)
Lemma define_rule_step r c p s :
  rules_for p
    (with_rules
       (let (l, d) := Dict.setdefault String.eqb (rc_param c) [] (rules s) in
        Dict.set String.eqb (rc_param c) (l ++ [r])%list d) s) =
  if String.eqb (rc_param c) p then (rules_for p s ++ [r])%list
  else rules_for p s.
Proof.
  unfold rules_for. cbn [rules with_rules].
  pose proof (get_setdefault_string p (rc_param c) ([] : list Rule) (rules s)) as G.
  pose proof (fst_setdefault _ _ String.eqb (rc_param c) ([] : list Rule) (rules s)) as F.
  destruct (Dict.setdefault String.eqb (rc_param c) [] (rules s)) as [l d].
  cbn [fst snd] in *. rewrite get_set_string.
  destruct (String.eqb (rc_param c) p) eqn:E.
  - apply String.eqb_eq in E. subst p. now rewrite F.
  - rewrite G. now destruct (Dict.get String.eqb p (rules s)).
Qed.

Lemma define_rule_loop r p cs :
  forall s,
    rules_for p
      (state_after
         (for_each
            (fun c =>
               modify (fun s =>
                 let (l, d) :=
                   Dict.setdefault String.eqb (rc_param c) [] (rules s) in
                 with_rules (Dict.set String.eqb (rc_param c) (l ++ [r])%list d) s))
            cs) s) =
    (rules_for p s ++
     repeat r (List.length (filter (fun c => String.eqb (rc_param c) p) cs)))%list.
Proof.
  induction cs as [|c cs IH]; intros s.
  - cbn. now rewrite app_nil_r.
  - cbn [for_each filter]. unfold state_after, bind, modify at 1. cbn [snd fst].
    match goal with |- rules_for p (snd (_ ?t)) = _ => specialize (IH t) end.
    unfold state_after in IH. rewrite IH.
    pose proof (define_rule_step r c p s) as S.
    destruct (Dict.setdefault String.eqb (rc_param c) [] (rules s)) as [l d].
    rewrite S.
    destruct (String.eqb (rc_param c) p); [|reflexivity].
    cbn [List.length repeat]. now rewrite <- app_assoc.
Qed.

(** X15.  [define_rule] indexes a rule by the parameters it concludes:
    the rule is appended, after the rules registered before, to the list
    of a parameter once for each conclusion about it (twice if it
    concludes the parameter twice), and the list of a parameter it does
    not conclude is unchanged. *)
Theorem define_rule_registers :
  forall (r : Rule) (p : string) (s : Shell),
    rules_for p (state_after (define_rule r) s) =
    (rules_for p s ++ repeat r (concludes r p))%list.
Proof.
  intros r p s. unfold define_rule, concludes. apply define_rule_loop.
Qed.

(** X16.  [instantiate] numbers the instances of a context from its
    counter: for a defined context the first call returns [(name,
    count)], a second call [(name, count + 1)], and then the second
    instance is the current one and the one bound to the context
    name. *)
Theorem instantiate_numbers_instances :
  forall (n : string) (ctx : Context) (s : Shell),
    Dict.get String.eqb n (contexts s) = Some ctx ->
    outcome_of (instantiate n) s = Ok (name ctx, count ctx) /\
    outcome_of (instantiate n ;; instantiate n) s
      = Ok (name ctx, (count ctx + 1)%Z) /\
    current_inst (state_after (instantiate n ;; instantiate n) s)
      = Some (name ctx, (count ctx + 1)%Z) /\
    Dict.get String.eqb n
      (instances (state_after (instantiate n ;; instantiate n) s))
      = Some (name ctx, (count ctx + 1)%Z).
Proof.
  intros n ctx s H.
  unfold outcome_of, state_after, instantiate, bind, modify, ret, Dict.item.
  cbn. rewrite H. cbn.
  rewrite get_set_same by apply String.eqb_refl. cbn.
  rewrite get_set_same by apply String.eqb_refl. repeat split.
Qed.

Lemma instantiate_numbers_instances_witness :
  Dict.get String.eqb "c" (contexts (Scenario.shell [])) = Some Scenario.c /\
  outcome_of (instantiate "c" ;; instantiate "c") (Scenario.shell [])
    = Ok ("c", 1%Z).
Proof.
  split; [reflexivity|].
  apply (instantiate_numbers_instances "c" Scenario.c (Scenario.shell [])).
  reflexivity.
Defined.

Lemma mem_add k ks : mem k (add k ks) = true.
Proof.
  unfold add. destruct (mem k ks) eqn:E; [exact E|].
  unfold mem. rewrite existsb_app. cbn. rewrite key_eqb_refl.
  now rewrite orb_true_r.
Qed.

Lemma success_is_recorded (m0 : M (option bool)) (k : key) s x :
  outcome_of
    (success <- m0 ;;
     (if truthy success
      then modify (fun s => with_known (add k (known s)) s)
      else ret tt) ;;
     ret success) s = Ok x ->
  truthy x = true ->
  mem k (known (state_after
                  (success <- m0 ;;
                   (if truthy success
                    then modify (fun s => with_known (add k (known s)) s)
                    else ret tt) ;;
                   ret success) s)) = true.
Proof.
  unfold outcome_of, state_after, bind, modify, ret.
  destruct (m0 s) as [[success|e] s2]; [|discriminate].
  destruct (truthy success) eqn:T; cbn [fst snd].
  - intros _ _. apply mem_add.
  - intros E. injection E as <-. congruence.
Qed.

Section FindOutFacts.
Variable float : string -> outcome Q.

(** X17.  When [find_out] returns a true value, [(param, inst)] is in
    [known] afterwards, [inst] being the current instance when none is
    given. *)
Theorem find_out_success_is_known :
  forall (fuel : nat) (p : string) (inst : inst_ref) (s : Shell)
         (x : option bool),
    outcome_of (find_out float fuel p inst) s = Ok x ->
    truthy x = true ->
    mem (p, target inst s) (known (state_after (find_out float fuel p inst) s))
      = true.
Proof.
  intros fuel p inst s x. unfold target, outcome_of, state_after.
  destruct fuel; cbn [find_out]; cbv beta zeta;
    set (tg := match inst with Some _ => _ | None => _ end);
    destruct (mem (p, tg) (known s)) eqn:K; cbn [fst snd]; try (intros; exact K).
  - discriminate.
  - destruct (get_param p s) as [[prm|e] s1] eqn:G.
    + rewrite (bind_ok _ _ _ _ _ G). apply success_is_recorded.
    + rewrite (bind_raise _ _ _ _ _ G). discriminate.
Qed.
End FindOutFacts.

Lemma find_out_success_is_known_witness :
  let s := state_after (instantiate "c") (Scenario.shell ["15"]) in
  outcome_of (find_out Decimal.float 1 "x" None) s = Ok (Some true) /\
  mem ("x", target None s)
      (known (state_after (find_out Decimal.float 1 "x" None) s)) = true.
Proof.
  cbv zeta. split; [reflexivity|].
  apply (find_out_success_is_known Decimal.float 1 "x" None _ (Some true));
    reflexivity.
Defined.

(** ** Withdrawal *)

Lemma get_rules_none p s :
  rules_for p s = [] ->
  get_rules p s =
  (Ok [], with_rules (snd (Dict.setdefault String.eqb p [] (rules s))) s).
Proof.
  intros H. unfold get_rules.
  pose proof (fst_setdefault _ _ String.eqb p ([] : list Rule) (rules s)) as F.
  fold (rules_for p s) in F. rewrite H in F.
  destruct (Dict.setdefault String.eqb p [] (rules s)) as [l d].
  cbn [fst snd] in *. now subst.
Qed.

Lemma no_rules_fire p fo tr s :
  rules_for p s = [] ->
  (rs <- get_rules p ;; b <- use_rules rs fo tr ;; ret (Some b)) s =
  (Ok (Some false),
   with_rules (snd (Dict.setdefault String.eqb p [] (rules s))) s).
Proof.
  intros H. unfold bind at 1. now rewrite (get_rules_none p s H).
Qed.

Section Withdrawal.
Variable float : string -> outcome Q.

Lemma ask_values_asked p i s :
  mem (p, i) (asked s) = true -> ask_values float p i s = (Ok None, s).
Proof.
  intros A. unfold ask_values, bind, gets. now rewrite A.
Qed.

(** X18.  A pair that was asked, is not known and has no rules is
    not asked again: [find_out] returns a false value without reading
    or writing anything on the port, and leaves the fact store,
    [known] and [asked] as they were. *)
Theorem find_out_asked_without_rules :
  forall (fuel : nat) (p : string) (i : Instance) (s : Shell),
    mem (p, Some i) (known s) = false ->
    mem (p, Some i) (asked s) = true ->
    rules_for p s = [] ->
    let s' := state_after (find_out float (S fuel) p (Some i)) s in
    (exists x, outcome_of (find_out float (S fuel) p (Some i)) s = Ok x /\
               truthy x = false) /\
    port_in s' = port_in s /\ port_log s' = port_log s /\
    known_values s' = known_values s /\
    known s' = known s /\ asked s' = asked s.
Proof.
  intros fuel p i s K A R. cbv zeta.
  unfold outcome_of, state_after. cbn [find_out]. cbv beta zeta. rewrite K.
  assert (G : get_param p s =
              (Ok (fst (Dict.setdefault String.eqb p (default_parameter p)
                          (params s))),
               with_params
                 (snd (Dict.setdefault String.eqb p (default_parameter p)
                         (params s))) s)).
  { unfold get_param. now destruct (Dict.setdefault _ _ _ _). }
  rewrite (bind_ok _ _ _ _ _ G).
  set (prm := fst (Dict.setdefault String.eqb p (default_parameter p)
                     (params s))).
  set (s1 := with_params _ s).
  assert (A1 : ask_values float p (Some i) s1 = (Ok None, s1))
    by (apply ask_values_asked; exact A).
  set (fo := Some (find_out float fuel)).
  set (tr := Some (fun r => _set_current_rule (Current r))).
  assert (R1 : (rs <- get_rules p ;; b <- use_rules rs fo tr ;; ret (Some b)) s1
               = (Ok (Some false),
                  with_rules (snd (Dict.setdefault String.eqb p [] (rules s1)))
                    s1))
    by (apply no_rules_fire; exact R).
  set (s2 := with_rules _ s1) in R1.
  assert (A2 : ask_values float p (Some i) s2 = (Ok None, s2))
    by (apply ask_values_asked; exact A).
  destruct (ask_first prm).
  - assert (P : por (ask_values float p (Some i))
                  (rs <- get_rules p ;; b <- use_rules rs fo tr ;; ret (Some b))
                  s1 = (Ok (Some false), s2)).
    { unfold por. rewrite (bind_ok _ _ _ _ _ A1). exact R1. }
    rewrite (bind_ok _ _ _ _ _ P). cbn.
    repeat split. eexists. split; reflexivity.
  - assert (P : por (rs <- get_rules p ;; b <- use_rules rs fo tr ;; ret (Some b))
                  (ask_values float p (Some i))
                  s1 = (Ok None, s2)).
    { unfold por. rewrite (bind_ok _ _ _ _ _ R1). exact A2. }
    rewrite (bind_ok _ _ _ _ _ P). cbn.
    repeat split. eexists. split; reflexivity.
Qed.

Lemma ask_values_unknown p i rest s :
  mem (p, Some i) (asked s) = false ->
  port_in s = "unknown" :: rest ->
  ask_values float p (Some i) s =
  (Ok (Some false),
   with_port_in rest
     (with_port_log (port_log s ++ [Prompt p i])
        (with_asked (add (p, Some i) (asked s)) s))).
Proof.
  intros A P. unfold ask_values, bind, gets, modify.
  match goal with
  | |- context [if ?b then _ else _] =>
      replace b with false by (symmetry; exact A)
  end.
  cbn. rewrite P. reflexivity.
Qed.

(** X19.  The answer [unknown] withdraws: for a pair that is neither
    known nor asked and has no rules, [find_out] prompts once, takes
    the one response, returns [False], records no evidence and does not
    add the pair to [known], but marks it as asked. *)
Theorem find_out_unknown_answer :
  forall (fuel : nat) (p : string) (i : Instance) (rest : list string)
         (s : Shell),
    mem (p, Some i) (known s) = false ->
    mem (p, Some i) (asked s) = false ->
    rules_for p s = [] ->
    port_in s = "unknown" :: rest ->
    let s' := state_after (find_out float (S fuel) p (Some i)) s in
    outcome_of (find_out float (S fuel) p (Some i)) s = Ok (Some false) /\
    port_in s' = rest /\
    port_log s' = (port_log s ++ [Prompt p i])%list /\
    known_values s' = known_values s /\
    known s' = known s /\
    mem (p, Some i) (asked s') = true.
Proof.
  intros fuel p i rest s K A R P. cbv zeta.
  unfold outcome_of, state_after. cbn [find_out]. cbv beta zeta. rewrite K.
  assert (G : get_param p s =
              (Ok (fst (Dict.setdefault String.eqb p (default_parameter p)
                          (params s))),
               with_params
                 (snd (Dict.setdefault String.eqb p (default_parameter p)
                         (params s))) s)).
  { unfold get_param. now destruct (Dict.setdefault _ _ _ _). }
  rewrite (bind_ok _ _ _ _ _ G).
  set (prm := fst (Dict.setdefault String.eqb p (default_parameter p)
                     (params s))).
  set (s1 := with_params _ s).
  set (fo := Some (find_out float fuel)).
  set (tr := Some (fun r => _set_current_rule (Current r))).
  pose proof (ask_values_unknown p i rest s1 A P) as A1.
  set (t1 := with_port_in rest _) in A1.
  assert (R1 : (rs <- get_rules p ;; b <- use_rules rs fo tr ;; ret (Some b)) t1
               = (Ok (Some false),
                  with_rules (snd (Dict.setdefault String.eqb p [] (rules t1)))
                    t1))
    by (apply no_rules_fire; exact R).
  assert (R2 : (rs <- get_rules p ;; b <- use_rules rs fo tr ;; ret (Some b)) s1
               = (Ok (Some false),
                  with_rules (snd (Dict.setdefault String.eqb p [] (rules s1)))
                    s1))
    by (apply no_rules_fire; exact R).
  set (s2 := with_rules _ s1) in R2.
  pose proof (ask_values_unknown p i rest s2 A P) as A2.
  destruct (ask_first prm).
  - assert (Q : por (ask_values float p (Some i))
                  (rs <- get_rules p ;; b <- use_rules rs fo tr ;; ret (Some b))
                  s1 = (Ok (Some false),
                        with_rules
                          (snd (Dict.setdefault String.eqb p [] (rules t1))) t1)).
    { unfold por. rewrite (bind_ok _ _ _ _ _ A1). exact R1. }
    rewrite (bind_ok _ _ _ _ _ Q). cbn.
    repeat split. apply mem_add.
  - assert (Q : por (rs <- get_rules p ;; b <- use_rules rs fo tr ;; ret (Some b))
                  (ask_values float p (Some i))
                  s1 = (Ok (Some false),
                        with_port_in rest
                          (with_port_log (port_log s2 ++ [Prompt p i])
                             (with_asked (add (p, Some i) (asked s2)) s2)))).
    { unfold por. rewrite (bind_ok _ _ _ _ _ R2). exact A2. }
    rewrite (bind_ok _ _ _ _ _ Q). cbn.
    repeat split. apply mem_add.
Qed.
End Withdrawal.

Lemma find_out_asked_without_rules_witness :
  let s := state_after (find_out Decimal.float 1 "z" (Some ("c", 0%Z)))
             (Scenario.shell ["unknown"; "15"]) in
  mem ("z", Some ("c", 0%Z)) (known s) = false /\
  mem ("z", Some ("c", 0%Z)) (asked s) = true /\
  rules_for "z" s = [] /\
  port_in (state_after (find_out Decimal.float 1 "z" (Some ("c", 0%Z))) s)
    = port_in s.
Proof.
  cbv zeta. split; [reflexivity|]. split; [reflexivity|]. split; [reflexivity|].
  apply (find_out_asked_without_rules Decimal.float 0 "z" ("c", 0%Z));
    reflexivity.
Defined.

Lemma find_out_unknown_answer_witness :
  let s := Scenario.shell ["unknown"; "15"] in
  mem ("z", Some ("c", 0%Z)) (known s) = false /\
  mem ("z", Some ("c", 0%Z)) (asked s) = false /\
  rules_for "z" s = [] /\
  port_in s = ["unknown"; "15"] /\
  outcome_of (find_out Decimal.float 1 "z" (Some ("c", 0%Z))) s
    = Ok (Some false).
Proof.
  cbv zeta. split; [reflexivity|]. split; [reflexivity|]. split; [reflexivity|].
  split; [reflexivity|].
  apply (find_out_unknown_answer Decimal.float 0 "z" ("c", 0%Z) ["15"]);
    reflexivity.
Defined.

(** ** What the engine changes *)

Section Within.
Variable R : Shell -> Shell -> Prop.
Hypothesis HR : rule_steps R.

Lemma steps_refl : forall s, R s s.
Proof. apply HR. Qed.

Lemma steps_trans : forall s t u, R s t -> R t u -> R s u.
Proof. apply HR. Qed.

Lemma within_ret {A} (a : A) : within R (ret a).
Proof. intros s. apply steps_refl. Qed.

Lemma within_reader {A} (f : Shell -> outcome A) : within R (fun s => (f s, s)).
Proof. intros s. apply steps_refl. Qed.

Lemma within_bind {A B} (m : M A) (k : A -> M B) :
  within R m -> (forall a, within R (k a)) -> within R (bind m k).
Proof.
  intros Hm Hk s. specialize (Hm s). unfold state_after, bind in *.
  destruct (m s) as [[a|e] s1]; cbn [snd] in *; [|exact Hm].
  eapply steps_trans; [exact Hm|apply Hk].
Qed.

Lemma within_try_except {A} (m h : M A) :
  within R m -> within R h -> within R (try_except m h).
Proof.
  intros Hm Hh s. specialize (Hm s). unfold state_after, try_except in *.
  destruct (m s) as [[a|e] s1]; cbn [snd] in *; [exact Hm|].
  eapply steps_trans; [exact Hm|apply Hh].
Qed.

Lemma within_for_each {A} (f : A -> M unit) xs :
  (forall x, within R (f x)) -> within R (for_each f xs).
Proof.
  intros Hf. induction xs as [|x xs IH]; cbn [for_each].
  - apply within_ret.
  - apply within_bind; auto.
Qed.

Lemma within_map_m {A B} (f : A -> M B) xs :
  (forall x, within R (f x)) -> within R (map_m f xs).
Proof.
  intros Hf. induction xs as [|x xs IH]; cbn [map_m].
  - apply within_ret.
  - apply within_bind; [auto|]. intros y.
    apply within_bind; [auto|]. intros ys. apply within_ret.
Qed.

Lemma within_modify (f : Shell -> Shell) :
  (forall s, R s (f s)) -> within R (modify f).
Proof. intros Hf s. apply Hf. Qed.

Lemma steps_get_vals : forall p i, within R (get_vals p i).
Proof. apply HR. Qed.

Lemma steps_mutate_default :
  forall r v,
    within R (mutate r (fun d => snd (Dict.setdefault value_eqb v CF.unknown d))).
Proof. apply HR. Qed.

Lemma steps_mutate_set :
  forall r v u, within R (mutate r (Dict.set value_eqb v u)).
Proof. apply HR. Qed.

Lemma steps_log : forall ev s, R s (with_port_log (port_log s ++ [ev]) s).
Proof. apply HR. Qed.

Lemma steps_get_param : forall n, within R (get_param n).
Proof. apply HR. Qed.

Ltac step_with t :=
  repeat first
    [ t
    | apply within_ret
    | apply within_reader
    | apply steps_get_vals | apply steps_mutate_default | apply steps_mutate_set
    | apply steps_get_param
    | apply within_modify; intro; apply steps_log
    | apply within_bind; [|intro]
    | apply within_for_each; intro
    | apply within_map_m; intro
    | assumption
    | progress cbv zeta
    | match goal with
      | |- within _ (if ?b then _ else _) => destruct b
      | |- within _ (match ?x with _ => _ end) => destruct x
      end ].

Ltac step := step_with fail.

Lemma within_write m : within R (write m).
Proof. unfold write. step. Qed.

Lemma within_update_cf p i v c : within R (update_cf p i v c).
Proof. unfold update_cf, get_cf, items, gets, lift. step. Qed.

Lemma within_eval_condition c values fo :
  (forall h, fo = Some h -> forall p i, within R (h p i)) ->
  within R (eval_condition c values fo).
Proof.
  intros Hh. unfold eval_condition, items, gets.
  destruct fo as [h|]; [pose proof (Hh h eq_refl) as H|];
    step_with ltac:(apply H).
Qed.

Lemma within_eval_condition_none c values :
  within R (eval_condition c values None).
Proof. apply within_eval_condition. intros h H; discriminate H. Qed.

Lemma within_reject_loop ps : within R (reject_loop ps).
Proof.
  induction ps as [|p ps IH]; cbn [reject_loop];
    step_with ltac:(apply within_eval_condition_none).
Qed.

Lemma within_combine_loop fo ps :
  (forall h, fo = Some h -> forall p i, within R (h p i)) ->
  forall total, within R (combine_loop fo total ps).
Proof.
  intros Hh. induction ps as [|p ps IH]; intros total; cbn [combine_loop];
    step_with ltac:(first [apply within_eval_condition; exact Hh | apply IH]).
Qed.

Lemma within_applicable r fo :
  (forall h, fo = Some h -> forall p i, within R (h p i)) ->
  within R (applicable r fo).
Proof.
  intros Hh. unfold applicable, premises.
  step_with ltac:(first [apply within_reject_loop
                        | apply within_combine_loop; exact Hh]).
Qed.

Lemma within_apply r fo tr :
  (forall h, fo = Some h -> forall p i, within R (h p i)) ->
  (forall t, tr = Some t -> forall r, within R (t r)) ->
  within R (apply r fo tr).
Proof.
  intros Hh Ht. unfold apply, conclusions.
  apply within_bind; [destruct tr as [t|]; [now apply (Ht t)|step]|].
  intros _.
  step_with ltac:(first [apply within_applicable; exact Hh
                        | apply within_update_cf]).
Qed.

Lemma within_use_rules rs fo tr :
  (forall h, fo = Some h -> forall p i, within R (h p i)) ->
  (forall t, tr = Some t -> forall r, within R (t r)) ->
  within R (use_rules rs fo tr).
Proof.
  intros Hh Ht. unfold use_rules.
  step_with ltac:(apply within_apply; assumption).
Qed.

Lemma within_sort_premises ps : within R (sort_premises ps).
Proof.
  induction ps as [|p ps IH]; cbn [sort_premises];
    step_with ltac:(apply within_eval_condition_none).
Qed.

Lemma within_print_why p : within R (print_why p).
Proof.
  unfold print_why, premises, gets, lift.
  step_with ltac:(first [apply within_write | apply within_sort_premises]).
Qed.

Section Reply.
Variable float : string -> outcome Q.

Lemma within_accept_reply p i resp : within R (accept_reply float p i resp).
Proof.
  unfold accept_reply, lift. step_with ltac:(apply within_update_cf).
Qed.
End Reply.
End Within.

Lemma same_script_steps : rule_steps same_script.
Proof.
  unfold rule_steps, same_script, within, state_after.
  repeat split; try reflexivity.
  - intros s t u H1 H2. congruence.
  - intros n s. unfold get_param. now destruct (Dict.setdefault _ _ _ _).
Qed.

Section Session.
Variable R : Shell -> Shell -> Prop.
Hypothesis HS : session_steps R.
Variable float : string -> outcome Q.

Lemma session_rule_steps : rule_steps R.
Proof. apply HS. Qed.

Lemma then_guarded {A B} (script : list string) (m : M A) (k : A -> M B) :
  within R m -> within same_script m ->
  (forall a s, port_in s = script -> R s (state_after (k a) s)) ->
  forall s, port_in s = script -> R s (state_after (bind m k) s).
Proof.
  pose proof session_rule_steps as HR.
  intros Hm Hf Hk s P. specialize (Hm s). specialize (Hf s).
  unfold same_script, state_after, bind in *.
  destruct (m s) as [[a|e] s1]; cbn [snd] in *; [|exact Hm].
  eapply (steps_trans R HR); [exact Hm|]. apply Hk. congruence.
Qed.

Lemma try_guarded {A} (script : list string) (m h : M A) :
  within R m -> within same_script m ->
  (forall s, port_in s = script -> R s (state_after h s)) ->
  forall s, port_in s = script -> R s (state_after (try_except m h) s).
Proof.
  pose proof session_rule_steps as HR.
  intros Hm Hf Hh s P. specialize (Hm s). specialize (Hf s).
  unfold same_script, state_after, try_except in *.
  destruct (m s) as [[a|e] s1]; cbn [snd] in *; [exact Hm|].
  eapply (steps_trans R HR); [exact Hm|]. apply Hh. congruence.
Qed.

Lemma within_ask_loop p i script :
  forall s, port_in s = script -> R s (state_after (ask_loop float p i script) s).
Proof.
  pose proof session_rule_steps as HR. pose proof same_script_steps as HF.
  induction script as [|resp script IH]; intros s P; cbn [ask_loop].
  - apply (within_bind R HR); [|intro; apply within_reader, HR].
    apply within_modify. apply steps_log, HR.
  - set (sa := with_port_log (port_log s ++ [Prompt p i]) s).
    set (sb := with_port_in script sa).
    assert (Ra : R s sa) by apply (steps_log R HR).
    assert (Rb : R sa sb) by (apply HS with (r := resp); exact P).
    eapply (steps_trans R HR); [exact Ra|].
    eapply (steps_trans R HR); [exact Rb|].
    change (R sb (state_after
      (if String.eqb resp EmptyString then ask_loop float p i script
       else if String.eqb resp "unknown" then ret (Some false)
       else if String.eqb resp "help" then
         write Help ;; ask_loop float p i script
       else if String.eqb resp "why" then
         print_why p ;; ask_loop float p i script
       else if String.eqb resp "rule" then
         cr <- gets current_rule ;;
         write (ShowMarker cr) ;; ask_loop float p i script
       else if String.eqb resp "?" then
         prm <- get_param p ;;
         ty <- lift (type_string prm) ;;
         write (MustBeOfType p ty) ;; ask_loop float p i script
       else
         try_except
           (accept_reply float p (Some i) resp)
           (write InvalidResponse ;; ask_loop float p i script)) sb)).
    assert (Pb : port_in sb = script) by reflexivity.
    revert Pb. generalize sb. clear sa sb Ra Rb P s.
    assert (W : forall m, within R (write m) /\ within same_script (write m))
      by (intro; split; apply within_write; assumption).
    repeat match goal with
           | |- forall s, _ -> R s (state_after (if ?b then _ else _) s) =>
               destruct b
           end.
    + exact IH.
    + intros s _. apply (within_ret R HR).
    + apply then_guarded; try apply W. intros _. exact IH.
    + apply then_guarded; try (apply within_print_why; assumption).
      intros _. exact IH.
    + apply then_guarded; try (apply within_reader; assumption). intros cr.
      apply then_guarded; try apply W. intros _. exact IH.
    + apply then_guarded; try (apply steps_get_param; assumption). intros prm.
      apply then_guarded; try (apply within_reader; assumption). intros ty.
      apply then_guarded; try apply W. intros _. exact IH.
    + apply try_guarded; try (apply within_accept_reply; assumption).
      apply then_guarded; try apply W. intros _. exact IH.
Qed.

Lemma within_ask_values p i : within R (ask_values float p i).
Proof.
  pose proof session_rule_steps as HR. unfold ask_values.
  apply (within_bind R HR); [apply within_reader, HR|]. intros again.
  destruct again; [apply within_ret, HR|].
  intros s. unfold state_after, bind, modify. cbn [snd fst].
  set (sa := with_asked (add (p, i) (asked s)) s).
  assert (Ra : R s sa) by apply HS.
  eapply (steps_trans R HR); [exact Ra|].
  destruct i as [i|]; [|apply (steps_refl R HR)].
  change (R sa (state_after (ask_loop float p i (port_in sa)) sa)).
  now apply within_ask_loop.
Qed.

Lemma within_find_out fuel :
  forall p i, within R (find_out float fuel p i).
Proof.
  pose proof session_rule_steps as HR.
  induction fuel as [|fuel IH]; intros p i s;
    unfold state_after; cbn [find_out]; cbv beta zeta;
    set (tg := match i with Some _ => _ | None => _ end); clearbody tg;
    destruct (mem _ (known s)); try apply (steps_refl R HR).
  revert s.
  match goal with |- forall s, R s (snd (?m s)) => change (within R m) end.
  assert (Hh : forall h, Some (find_out float fuel) = Some h ->
                         forall p i, within R (h p i)).
  { intros h E. injection E as <-. exact IH. }
  assert (Ht : forall t, Some (fun r => _set_current_rule (Current r)) = Some t ->
                         forall r, within R (t r)).
  { intros t E. injection E as <-. intros r.
    apply within_modify. intros s. apply HS. }
  assert (Hr : within R (rs <- get_rules p ;;
                         b <- use_rules rs (Some (find_out float fuel))
                                (Some (fun r => _set_current_rule (Current r))) ;;
                         ret (Some b))).
  { apply (within_bind R HR); [apply HS|]. intros rs.
    apply (within_bind R HR); [now apply within_use_rules|].
    intros b. apply within_ret, HR. }
  apply (within_bind R HR); [apply steps_get_param, HR|]. intros prm.
  apply (within_bind R HR).
  - destruct (ask_first prm); unfold por;
      (apply (within_bind R HR); [first [apply within_ask_values | exact Hr]|]);
      intros x; destruct (truthy x);
      first [apply within_ret, HR | apply within_ask_values | exact Hr].
  - intros success. apply (within_bind R HR); [|intro; apply within_ret, HR].
    destruct (truthy success); [|apply within_ret, HR].
    apply within_modify. intros s. apply HS.
Qed.
End Session.

(** ** A resolution only adds *)

Lemma grows_refl s : grows s s.
Proof.
  unfold grows. repeat split; auto.
  - exists []. now rewrite app_nil_r.
  - now exists [].
Qed.

Lemma grows_trans s t u : grows s t -> grows t u -> grows s u.
Proof.
  unfold grows.
  intros (C1 & I1 & U1 & K1 & A1 & E1 & V1 & R1 & P1 & [l1 L1] & [i1 N1])
         (C2 & I2 & U2 & K2 & A2 & E2 & V2 & R2 & P2 & [l2 L2] & [i2 N2]).
  repeat split; try congruence; auto.
  - exists (l1 ++ l2)%list. now rewrite L2, L1, app_assoc.
  - exists (i1 ++ i2)%list. now rewrite N1, N2, app_assoc.
Qed.

Ltac grows_frame :=
  unfold grows; cbn;
  repeat match goal with
         | |- _ /\ _ => split
         end;
  try reflexivity; auto;
  try (exists []; now rewrite ?app_nil_r).

Lemma get_kept {K V} (eqb : K -> K -> bool) (k k' : K) (v : V) d :
  Dict.get eqb k d <> None -> Dict.get eqb k (Dict.set eqb k' v d) <> None.
Proof.
  intros H. destruct (get_set_cases _ _ eqb k k' v d) as [E|E]; rewrite E;
    [discriminate|exact H].
Qed.

Lemma get_kept_setdefault {K V} (eqb : K -> K -> bool) (k k' : K) (v : V) d :
  Dict.get eqb k d <> None ->
  Dict.get eqb k (snd (Dict.setdefault eqb k' v d)) <> None.
Proof.
  intros H. unfold Dict.setdefault.
  destruct (Dict.get eqb k' d); cbn [snd]; [exact H|]. now apply get_kept.
Qed.

Lemma grows_store (f : store -> store) s :
  (forall k, Dict.get key_eqb k (known_values s) <> None ->
             Dict.get key_eqb k (f (known_values s)) <> None) ->
  (forall k v, Dict.get value_eqb v (items_of k (known_values s)) <> None ->
               Dict.get value_eqb v (items_of k (f (known_values s))) <> None) ->
  grows s (with_known_values (f (known_values s)) s).
Proof.
  intros H1 H2. grows_frame. intros p i v. apply (H2 (p, i) v).
Qed.

Lemma grows_get_vals p i : within grows (get_vals p i).
Proof.
  intros s. unfold get_vals, state_after, bind, modify, ret. cbn [snd fst].
  apply (grows_store
           (fun st => snd (Dict.setdefault key_eqb (p, i) ([] : vals_t) st))).
  - intros k. apply get_kept_setdefault.
  - intros k v. now rewrite items_of_touch.
Qed.

Lemma grows_mutate r f :
  (forall v d, Dict.get value_eqb v d <> None -> Dict.get value_eqb v (f d) <> None) ->
  within grows (mutate r f).
Proof.
  intros Hf s. unfold mutate, state_after, modify. cbn [snd].
  apply (grows_store
           (fun st => Dict.set key_eqb r (f (items_of r st)) st)).
  - intros k. apply get_kept.
  - intros k v H. destruct (key_eqb r k) eqn:E.
    + apply key_eqb_eq in E. subst k. rewrite items_of_set. now apply Hf.
    + now rewrite items_of_set_other.
Qed.

Lemma mem_add_kept k k' ks : mem k ks = true -> mem k (add k' ks) = true.
Proof.
  intros H. unfold add. destruct (mem k' ks); [exact H|].
  unfold mem in *. rewrite existsb_app, H. reflexivity.
Qed.

Lemma grows_rule_steps : rule_steps grows.
Proof.
  unfold rule_steps. split; [exact grows_refl|]. split; [exact grows_trans|].
  split; [exact grows_get_vals|].
  split; [intros r v; apply grows_mutate; intros; now apply get_kept_setdefault|].
  split; [intros r v u; apply grows_mutate; intros; now apply get_kept|].
  split.
  - intros ev s. grows_frame. now exists [ev].
  - intros n s. unfold state_after, get_param.
    pose proof (get_setdefault_string (V := Param)) as G.
    specialize (fun k => G k n (default_parameter n) (params s)).
    destruct (Dict.setdefault String.eqb n (default_parameter n) (params s))
      as [prm d]. cbn [snd] in *.
    grows_frame. intros k q H. rewrite G, H. reflexivity.
Qed.

Lemma grows_session_steps : session_steps grows.
Proof.
  unfold session_steps. split; [exact grows_rule_steps|].
  split.
  - intros n s. unfold state_after, get_rules.
    pose proof (get_setdefault_string (V := list Rule)) as G.
    specialize (fun k => G k n [] (rules s)).
    destruct (Dict.setdefault String.eqb n [] (rules s)) as [l d].
    cbn [snd] in *.
    grows_frame. intros k q H. rewrite G, H. reflexivity.
  - split; [intros m s; grows_frame|].
    split; [intros k s; grows_frame; intros k'; apply mem_add_kept|].
    split; [intros k s; grows_frame; intros k'; apply mem_add_kept|].
    intros r rest s P. grows_frame. exists [r]. exact P.
Qed.

(** ** A session keeps the knowledge base *)

Lemma persists_refl s : persists s s.
Proof.
  unfold persists. repeat split; auto.
  - intros n ctx H. exists ctx. repeat split; auto. lia.
  - exists []. now rewrite app_nil_r.
  - now exists [].
Qed.

Lemma persists_trans s t u : persists s t -> persists t u -> persists s u.
Proof.
  unfold persists.
  intros (R1 & P1 & C1 & [l1 L1] & [i1 N1]) (R2 & P2 & C2 & [l2 L2] & [i2 N2]).
  repeat split; auto.
  - intros n ctx H. destruct (C1 n ctx H) as (c1 & G1 & A1 & B1 & D1 & E1).
    destruct (C2 n c1 G1) as (c2 & G2 & A2 & B2 & D2 & E2).
    exists c2. repeat split; try congruence. lia.
  - exists (l1 ++ l2)%list. now rewrite L2, L1, app_assoc.
  - exists (i1 ++ i2)%list. now rewrite N1, N2, app_assoc.
Qed.

Ltac persists_frame :=
  unfold persists, state_after, get_vals, mutate, bind, modify, ret; cbn;
  repeat match goal with
         | |- _ /\ _ => split
         end;
  auto;
  try (let c := fresh "ctx" in
       let H := fresh "H" in
       intros ? c H; exists c; repeat split; auto; lia);
  try (exists []; now rewrite ?app_nil_r).

Lemma persists_rule_steps : rule_steps persists.
Proof.
  unfold rule_steps. split; [exact persists_refl|]. split; [exact persists_trans|].
  split; [intros p i s; persists_frame|].
  split; [intros r v s; persists_frame|].
  split; [intros r v u s; persists_frame|].
  split.
  - intros ev s. persists_frame. now exists [ev].
  - intros n s. unfold state_after, get_param.
    pose proof (get_setdefault_string (V := Param)) as G.
    specialize (fun k => G k n (default_parameter n) (params s)).
    destruct (Dict.setdefault String.eqb n (default_parameter n) (params s))
      as [prm d]. cbn [snd] in *.
    persists_frame. intros k q H. rewrite G, H. reflexivity.
Qed.

Lemma persists_session_steps : session_steps persists.
Proof.
  unfold session_steps. split; [exact persists_rule_steps|].
  split.
  - intros n s. unfold state_after, get_rules.
    pose proof (get_setdefault_string (V := list Rule)) as G.
    specialize (fun k => G k n [] (rules s)).
    destruct (Dict.setdefault String.eqb n [] (rules s)) as [l d].
    cbn [snd] in *.
    persists_frame. intros k q H. rewrite G, H. reflexivity.
  - split; [intros m s; persists_frame|].
    split; [intros k s; persists_frame|].
    split; [intros k s; persists_frame|].
    intros r rest s P. persists_frame. exists [r]. exact P.
Qed.

Lemma persists_instantiate n : within persists (instantiate n).
Proof.
  intros s. unfold state_after, instantiate, bind, modify, ret, Dict.item.
  cbn [fst snd].
  destruct (Dict.get String.eqb n (contexts s)) as [ctx|] eqn:E;
    [|apply persists_refl].
  cbn. unfold persists. cbn.
  repeat split; auto.
  - intros k c H. rewrite get_set_string.
    destruct (String.eqb n k) eqn:K.
    + apply String.eqb_eq in K. subst k. rewrite E in H. injection H as <-.
      eexists. split; [reflexivity|]. cbn. repeat split. lia.
    + exists c. repeat split; auto. lia.
  - exists []. now rewrite app_nil_r.
  - now exists [].
Qed.

Lemma persists_clear : within persists clear.
Proof. intros s. unfold state_after, clear, modify. persists_frame. Qed.

Section Sessions.
Variable float : string -> outcome Q.

Lemma find_out_grows fuel p i s :
  grows s (state_after (find_out float fuel p i) s).
Proof. apply (within_find_out grows grows_session_steps float). Qed.

Lemma persists_find_each fuel ps :
  within persists
    (for_each (fun p => find_out float fuel p None ;; ret tt) ps).
Proof.
  pose proof persists_rule_steps as HR.
  apply (within_for_each persists HR). intros p.
  apply (within_bind persists HR);
    [apply (within_find_out persists persists_session_steps)|].
  intros _. apply within_ret, HR.
Qed.

Lemma persists_snapshot ps :
  forall result, within persists (snapshot ps result).
Proof.
  pose proof persists_rule_steps as HR.
  induction ps as [|p ps IH]; intros result; cbn [snapshot];
    [apply within_ret, HR|].
  apply (within_bind persists HR); [apply within_reader, HR|]. intros ci.
  apply (within_bind persists HR); [apply steps_get_vals, HR|]. intros r. apply IH.
Qed.

Lemma persists_execute_loop fuel names :
  forall results, within persists (execute_loop float fuel names results).
Proof.
  pose proof persists_rule_steps as HR.
  induction names as [|n names IH]; intros results; cbn [execute_loop];
    [apply within_ret, HR|].
  apply (within_bind persists HR); [apply within_reader, HR|]. intros ctx.
  apply (within_bind persists HR); [apply persists_instantiate|]. intros _.
  apply (within_bind persists HR);
    [apply within_modify; intros s; apply persists_session_steps|]. intros _.
  apply (within_bind persists HR); [apply persists_find_each|]. intros _.
  apply (within_bind persists HR);
    [apply within_modify; intros s; apply persists_session_steps|]. intros _.
  apply (within_bind persists HR); [apply persists_find_each|]. intros _.
  apply (within_bind persists HR); [|intro; apply IH].
  destruct (goals ctx); [apply within_ret, HR|].
  apply (within_bind persists HR); [apply persists_snapshot|]. intros result.
  apply (within_bind persists HR); [apply within_reader, HR|]. intros ci.
  apply within_ret, HR.
Qed.

Lemma execute_persists fuel names s :
  persists s (state_after (execute float fuel names) s).
Proof.
  pose proof persists_rule_steps as HR. revert s.
  change (within persists (execute float fuel names)). unfold execute.
  apply (within_bind persists HR); [apply within_write, HR|]. intros _.
  apply (within_bind persists HR); [apply persists_clear|]. intros _.
  apply (within_bind persists HR); [apply persists_execute_loop|].
  intros results.
  apply (within_bind persists HR); [apply within_reader, HR|]. intros values.
  apply within_ret, HR.
Qed.

(** X20.  [find_out] leaves the contexts with their counters, the
    dictionary of instances and the current instance as they were,
    however deep the resolution goes and also when it raises. *)
Theorem find_out_keeps_instances :
  forall (fuel : nat) (p : string) (i : inst_ref) (s : Shell),
    contexts (state_after (find_out float fuel p i) s) = contexts s /\
    instances (state_after (find_out float fuel p i) s) = instances s /\
    current_inst (state_after (find_out float fuel p i) s) = current_inst s.
Proof.
  intros fuel p i s. destruct (find_out_grows fuel p i s) as (C & I & U & _).
  now repeat split.
Qed.

(** X21.  [find_out] never forgets: a pair that is in [known] or in
    [asked] is still there afterwards, and a value that has a stored
    certainty still has one. *)
Theorem find_out_never_forgets :
  forall (fuel : nat) (p : string) (i : inst_ref) (s : Shell)
         (k : key) (q : string) (j : inst_ref) (v : value),
    let s' := state_after (find_out float fuel p i) s in
    (mem k (known s) = true -> mem k (known s') = true) /\
    (mem k (asked s) = true -> mem k (asked s') = true) /\
    (stored q j v s <> None -> stored q j v s' <> None).
Proof.
  intros fuel p i s k q j v. cbv zeta.
  destruct (find_out_grows fuel p i s) as (_ & _ & _ & K & A & _ & V & _).
  repeat split; auto.
Qed.

(** X22.  [find_out] uses the port in order: what it logs is added
    after what was logged before, and the responses it leaves in the
    script are a suffix of the script it found; no response is read
    twice or skipped back to. *)
Theorem find_out_uses_port_in_order :
  forall (fuel : nat) (p : string) (i : inst_ref) (s : Shell),
    let s' := state_after (find_out float fuel p i) s in
    (exists l, port_log s' = (port_log s ++ l)%list) /\
    (exists l, port_in s = (l ++ port_in s')%list).
Proof.
  intros fuel p i s. cbv zeta.
  destruct (find_out_grows fuel p i s)
    as (_ & _ & _ & _ & _ & _ & _ & _ & _ & L & N).
  now split.
Qed.

(** X23.  A session keeps the knowledge base: after [execute], also
    when it raises, every rule list and parameter that was defined is
    as it was, every context that was defined is still there with its
    name, initial parameters and goals, and no counter has gone
    down. *)
Theorem execute_keeps_knowledge_base :
  forall (fuel : nat) (names : list string) (s : Shell)
         (p : string) (rs : list Rule) (prm : Param) (ctx : Context),
    let s' := state_after (execute float fuel names) s in
    (Dict.get String.eqb p (rules s) = Some rs ->
     Dict.get String.eqb p (rules s') = Some rs) /\
    (Dict.get String.eqb p (params s) = Some prm ->
     Dict.get String.eqb p (params s') = Some prm) /\
    (Dict.get String.eqb p (contexts s) = Some ctx ->
     exists ctx',
       Dict.get String.eqb p (contexts s') = Some ctx' /\
       name ctx' = name ctx /\ initial_data ctx' = initial_data ctx /\
       goals ctx' = goals ctx /\ (count ctx <= count ctx')%Z).
Proof.
  intros fuel names s p rs prm ctx. cbv zeta.
  destruct (execute_persists fuel names s) as (R & P & C & _).
  repeat split; auto.
Qed.

(** X24.  [execute] does not reset the port: the log it leaves starts
    with the log it found, and the responses left in the script are a
    suffix of the script it found. *)
Theorem execute_uses_port_in_order :
  forall (fuel : nat) (names : list string) (s : Shell),
    let s' := state_after (execute float fuel names) s in
    (exists l, port_log s' = (port_log s ++ l)%list) /\
    (exists l, port_in s = (l ++ port_in s')%list).
Proof.
  intros fuel names s. cbv zeta.
  destruct (execute_persists fuel names s) as (_ & _ & _ & L & N).
  now split.
Qed.
End Sessions.

(** ** Results and marks *)

Lemma bind_ok_inv {A B} (m : M A) (k : A -> M B) s b :
  outcome_of (bind m k) s = Ok b ->
  exists a, outcome_of m s = Ok a /\
            outcome_of (k a) (state_after m s) = Ok b.
Proof.
  unfold outcome_of, state_after, bind.
  destruct (m s) as [[a|e] s1]; [|discriminate].
  intros H. now exists a.
Qed.

Lemma without_goals_persists names s t :
  persists s t -> without_goals names s -> without_goals names t.
Proof.
  intros (_ & _ & C & _) H n Hin. destruct (H n Hin) as (ctx & G & E).
  destruct (C n ctx G) as (ctx' & G' & _ & _ & E' & _).
  exists ctx'. split; [exact G'|congruence].
Qed.

Section Results.
Variable float : string -> outcome Q.

Lemma execute_loop_without_goals fuel names :
  forall results s r,
    without_goals names s ->
    outcome_of (execute_loop float fuel names results) s = Ok r ->
    r = results.
Proof.
  pose proof persists_rule_steps as HR.
  induction names as [|n names IH]; intros results s r W; cbn [execute_loop].
  - intros E. now injection E as <-.
  - destruct (W n (or_introl eq_refl)) as (ctx & G & E).
    intros H.
    apply bind_ok_inv in H. destruct H as (ctx0 & O0 & H).
    assert (ctx0 = ctx).
    { unfold outcome_of, Dict.item in O0. cbn in O0. rewrite G in O0.
      now injection O0. }
    subst ctx0.
    set (m0 := fun s : Shell => (Dict.item String.eqb n (contexts s), s)) in *.
    assert (P0 : persists s (state_after m0 s)) by apply (within_reader persists HR).
    revert H. generalize dependent (state_after m0 s). intros s0 P0 H.
    apply bind_ok_inv in H. destruct H as (i1 & _ & H).
    pose proof (persists_instantiate n s0) as P1.
    revert H. generalize dependent (state_after (instantiate n) s0).
    intros s1 P1 H.
    apply bind_ok_inv in H. destruct H as (u2 & _ & H).
    assert (P2 : persists s1 (state_after (_set_current_rule Initial) s1))
      by apply persists_session_steps.
    revert H. generalize dependent (state_after (_set_current_rule Initial) s1).
    intros s2 P2 H.
    apply bind_ok_inv in H. destruct H as (u3 & _ & H).
    pose proof (persists_find_each float fuel (initial_data ctx) s2) as P3.
    revert H.
    generalize dependent
      (state_after
         (for_each (fun p => find_out float fuel p None ;; ret tt)
            (initial_data ctx)) s2).
    intros s3 P3 H.
    apply bind_ok_inv in H. destruct H as (u4 & _ & H).
    assert (P4 : persists s3 (state_after (_set_current_rule Goal) s3))
      by apply persists_session_steps.
    revert H. generalize dependent (state_after (_set_current_rule Goal) s3).
    intros s4 P4 H.
    apply bind_ok_inv in H. destruct H as (u5 & _ & H).
    pose proof (persists_find_each float fuel (goals ctx) s4) as P5.
    revert H.
    generalize dependent
      (state_after
         (for_each (fun p => find_out float fuel p None ;; ret tt)
            (goals ctx)) s4).
    intros s5 P5 H.
    rewrite E in H. apply bind_ok_inv in H. destruct H as (res & O6 & H).
    injection O6 as <-. change (state_after (ret results) s5) with s5 in H.
    apply (IH results s5 r); [|exact H].
    apply (without_goals_persists names s s5).
    + repeat (eapply persists_trans; [eassumption|]). apply persists_refl.
    + intros k Hk. apply W. now right.
Qed.

(** X25.  Contexts that declare no goal add nothing to the result:
    when every named context is defined without goals and [execute]
    returns, it returns the empty mapping, whatever was asked and
    answered on the way. *)
Theorem execute_without_goals :
  forall (fuel : nat) (names : list string) (s : Shell)
         (r : Dict.t inst_ref (Dict.t string vals_t)),
    without_goals names s ->
    outcome_of (execute float fuel names) s = Ok r ->
    r = [].
Proof.
  intros fuel names s r W H. unfold execute in H.
  apply bind_ok_inv in H. destruct H as (u1 & _ & H).
  apply bind_ok_inv in H. destruct H as (u2 & _ & H).
  apply bind_ok_inv in H. destruct H as (results & O & H).
  apply execute_loop_without_goals in O.
  - subst results. apply bind_ok_inv in H. destruct H as (values & _ & H).
    now injection H as <-.
  - exact W.
Qed.

(** X26.  [ask_values] always leaves [(param, inst)] in [asked]:
    whether it was asked before or is asked now, whatever the answers
    are, and also when the port or a command raises. *)
Theorem ask_values_marks_asked :
  forall (p : string) (i : inst_ref) (s : Shell),
    mem (p, i) (asked (state_after (ask_values float p i) s)) = true.
Proof.
  intros p i s.
  destruct (mem (p, i) (asked s)) eqn:A.
  - unfold state_after. rewrite (ask_values_asked float p i s A). exact A.
  - unfold ask_values, state_after, bind, gets, modify.
    match goal with
    | |- context [if ?b then _ else _] =>
        replace b with false by (symmetry; exact A)
    end.
    cbn [fst snd].
    set (sa := with_asked (add (p, i) (asked s)) s).
    assert (Ma : mem (p, i) (asked sa) = true) by apply mem_add.
    destruct i as [i|]; [|exact Ma].
    pose proof (within_ask_loop grows grows_session_steps float p i
                  (port_in sa) sa eq_refl) as G.
    destruct G as (_ & _ & _ & _ & Ga & _).
    apply Ga. exact Ma.
Qed.
End Results.

Lemma execute_without_goals_witness :
  let s := state_after (define_context (mkContext 0 "d" ["x"] []))
             (Scenario.shell ["15"]) in
  without_goals ["d"] s /\
  outcome_of (execute Decimal.float 1 ["d"]) s = Ok [] /\
  ([] : Dict.t inst_ref (Dict.t string vals_t)) = [].
Proof.
  cbv zeta.
  assert (W : without_goals ["d"]
                (state_after (define_context (mkContext 0 "d" ["x"] []))
                   (Scenario.shell ["15"]))).
  { intros n [<-|[]]. eexists. split; reflexivity. }
  split; [exact W|]. split; [reflexivity|].
  apply (execute_without_goals Decimal.float 1 ["d"] _ [] W). reflexivity.
Defined.

Lemma find_out_never_forgets_witness :
  let s := state_after (execute Decimal.float 1 ["c"]) (Scenario.shell ["15"]) in
  let s' := state_after (find_out Decimal.float 1 "z" None) s in
  mem ("x", Some ("c", 0%Z)) (known s) = true /\
  mem ("x", Some ("c", 0%Z)) (known s') = true /\
  stored "y" (Some ("c", 0%Z)) (VStr "hi") s' <> None.
Proof.
  cbv zeta. split; [reflexivity|].
  pose proof (find_out_never_forgets Decimal.float 1 "z" None
                (state_after (execute Decimal.float 1 ["c"]) (Scenario.shell ["15"]))
                ("x", Some ("c", 0%Z)) "y" (Some ("c", 0%Z)) (VStr "hi")) as H.
  cbv zeta in H. destruct H as (K & _ & V). split.
  - apply K. reflexivity.
  - apply V. discriminate.
Defined.

Lemma execute_keeps_knowledge_base_witness :
  let s := Scenario.shell ["15"] in
  let s' := state_after (execute Decimal.float 1 ["c"]) s in
  Dict.get String.eqb "y" (rules s) = Some [Scenario.rule1] /\
  Dict.get String.eqb "y" (rules s') = Some [Scenario.rule1] /\
  Dict.get String.eqb "y" (params s') = Some Scenario.y.
Proof.
  cbv zeta. split; [reflexivity|].
  pose proof (execute_keeps_knowledge_base Decimal.float 1 ["c"]
                (Scenario.shell ["15"]) "y" [Scenario.rule1] Scenario.y
                Scenario.c) as H.
  cbv zeta in H. destruct H as (R & P & _). split.
  - apply R. reflexivity.
  - apply P. reflexivity.
Defined.

(** X27.  Rule application keeps the fact store within certainty
    factors: if every stored certainty is in [[-1, 1]] and the hook and
    the observer keep it so, then after [apply], fired or not and also
    when it raises, every stored certainty is in [[-1, 1]]. *)
Theorem apply_keeps_certainty_factors :
  forall (r : Rule) (fo : option hook) (tr : option tracker) (s : Shell),
    keeping_hook fo -> keeping_tracker tr ->
    cf_invariant s ->
    cf_invariant (state_after (apply r fo tr) s).
Proof.
  intros r fo tr s Hh Ht Hs.
  apply (apply_keeps_cf_invariant r fo tr Hh Ht s Hs).
Qed.

Lemma apply_keeps_certainty_factors_witness :
  let s := state_after
             (instantiate "c" ;;
              update_cf "x" (Some ("c", 0%Z)) (VInt 15) CF.true)
             (Scenario.shell []) in
  cf_invariant (state_after (apply Scenario.rule1 None None) s).
Proof.
  cbv zeta. apply apply_keeps_certainty_factors.
  - intros h H; discriminate H.
  - intros t H; discriminate H.
  - assert (K : keeps (instantiate "c" ;;
                       update_cf "x" (Some ("c", 0%Z)) (VInt 15) CF.true)
                  (fun _ => True)).
    { eapply keeps_bind; [apply keeps_instantiate|]. intros _ _.
      apply keeps_update_cf. split; discriminate. }
    apply K. intros p i v c H. discriminate H.
Defined.

(** ** Checked certainty tokens *)



